(** * The conversational router of project_zip: memory store, pending-command
      state machine and dispatch engine

    A shallow embedding of [utils/memory_manager.py] and [master_router.py].
    Python dictionaries are finite maps ([gmap]) keyed by strings, lists are
    lists, and the router's mutable attributes are threaded explicitly through
    a small state-and-exception monad. *)

From Stdlib Require Import Ascii.
From stdpp Require Import gmap strings list fin_maps.


(** ** Python values and strings *)

(** The values that the router stores or forwards: text, or a list of texts
    (the shape of the [user_memos] entry). *)
Inductive value :=
  | VStr (s : string)
  | VList (l : list string).

#[global] Instance value_eq_dec : EqDecision value.
Proof. solve_decision. Defined.

(** [str.replace('_', ' ')] *)
Fixpoint replace_underscores (s : string) : string :=
  match s with
  | EmptyString => EmptyString
  | String c s' =>
      String (if Ascii.eqb c "_"%char then " "%char else c) (replace_underscores s')
  end.

(** [sep.join(l)] *)
Fixpoint join (sep : string) (l : list string) : string :=
  match l with
  | [] => ""
  | [x] => x
  | x :: l' => x +:+ sep +:+ join sep l'
  end.

(** [d.update(other)]: the entries of [other] win on a key collision. *)
Definition dict_update {V} (d other : gmap string V) : gmap string V := other ∪ d.

(** [l.remove(x)]: drops the first occurrence of [x] (the caller checks
    membership first). *)
Fixpoint list_remove_first (x : string) (l : list string) : list string :=
  match l with
  | [] => []
  | y :: l' => if decide (x = y) then l' else y :: list_remove_first x l'
  end.

(** The last [n] elements of a list. *)
Definition lastn {A} (n : nat) (l : list A) : list A := drop (length l - n) l.

(** ** Formattable templates

    The configuration file is not part of the sources; its template strings
    are taken as parameters, already split into literal text and named
    replacement fields.  [format] is [str.format] with keyword arguments: a field that has no
    keyword argument raises [KeyError], an extra keyword is ignored. *)
Inductive piece :=
  | Lit (s : string)
  | Field (name : string).

Definition template := list piece.

Fixpoint format (t : template) (kw : gmap string string) : option string :=
  match t with
  | [] => Some ""
  | Lit s :: t' => (fun rest => s +:+ rest) <$> format t' kw
  | Field f :: t' =>
      match kw !! f with
      | Some v => (fun rest => v +:+ rest) <$> format t' kw
      | None => None
      end
  end.

(** [sub] occurs in [s]. *)
Definition mentions (s sub : string) : Prop :=
  ∃ pre post, s = pre +:+ sub +:+ post.

(** ** utils/memory_manager.py *)

Record entry := Entry { role : string; content : string }.

#[global] Instance entry_eq_dec : EqDecision entry.
Proof. solve_decision. Defined.

(** [collections.deque(maxlen=n).append(x)]: the item is appended on the
    right and, when the deque then exceeds [maxlen], one item is popped from
    the left. *)
Definition deque_append (maxlen : nat) (d : list entry) (x : entry) : list entry :=
  let d' := d ++ [x] in
  if decide (maxlen < length d') then drop 1 d' else d'.

Module MemoryManager.

Record t := Make {
  short_term_memory : gmap string (list entry);
  long_term_memory : gmap string (gmap string value);
  stm_max_len : nat
}.

(** [__init__(self, stm_max_len=20)] *)
Definition default_stm_max_len : nat := 20.

Definition init (n : nat) : t :=
  {| short_term_memory := ∅; long_term_memory := ∅; stm_max_len := n |}.

Definition get_short_term_history (m : t) (uid : string) : list entry :=
  default [] (short_term_memory m !! uid).

Definition add_to_short_term (uid user_input assistant_response : string) (m : t) : t :=
  let d := default [] (short_term_memory m !! uid) in
  let d := deque_append (stm_max_len m) d (Entry "user" user_input) in
  let d := deque_append (stm_max_len m) d (Entry "assistant" assistant_response) in
  {| short_term_memory := <[uid := d]> (short_term_memory m);
     long_term_memory := long_term_memory m;
     stm_max_len := stm_max_len m |}.

Definition get_all_long_term (m : t) (uid : string) : gmap string value :=
  default ∅ (long_term_memory m !! uid).

Definition get_from_long_term (m : t) (uid key : string) : option value :=
  get_all_long_term m uid !! key.

Definition add_to_long_term (uid : string) (data : gmap string value) (m : t) : t :=
  {| short_term_memory := short_term_memory m;
     long_term_memory :=
       <[uid := dict_update (get_all_long_term m uid) data]> (long_term_memory m);
     stm_max_len := stm_max_len m |}.

(** [remember_fact]: [None] is the [AttributeError] of calling [append] on
    a [user_memos] entry that is not a list; nothing was changed by then,
    since the user's map and the key both already existed. *)
Definition remember_fact (uid fact : string) (m : t) : option t :=
  let user := get_all_long_term m uid in
  match user !! "user_memos" with
  | None =>
      Some {| short_term_memory := short_term_memory m;
              long_term_memory :=
                <[uid := <["user_memos" := VList [fact]]> user]> (long_term_memory m);
              stm_max_len := stm_max_len m |}
  | Some (VList memos) =>
      Some {| short_term_memory := short_term_memory m;
              long_term_memory :=
                <[uid := <["user_memos" := VList (memos ++ [fact])]> user]>
                  (long_term_memory m);
              stm_max_len := stm_max_len m |}
  | Some (VStr _) => None
  end.

(** Every transcript respects the capacity: the invariant that [deque]
    maintains by construction. *)
Definition stm_bounded (m : t) : Prop :=
  ∀ uid d, short_term_memory m !! uid = Some d → length d ≤ stm_max_len m.

End MemoryManager.

(** ** More Python string helpers (ASCII) *)

Definition nl : string := String (ascii_of_nat 10) "".

Definition is_space (c : ascii) : bool :=
  let n := nat_of_ascii c in
  ((9 <=? n) && (n <=? 13)) || ((28 <=? n) && (n <=? 32)).

Fixpoint lstrip (s : string) : string :=
  match s with
  | String c s' => if is_space c then lstrip s' else s
  | EmptyString => EmptyString
  end.

Fixpoint rstrip (s : string) : string :=
  match s with
  | String c s' =>
      match rstrip s' with
      | EmptyString => if is_space c then EmptyString else String c EmptyString
      | rest => String c rest
      end
  | EmptyString => EmptyString
  end.

(** [str.strip()] *)
Definition strip (s : string) : string := rstrip (lstrip s).

Definition upper_char (c : ascii) : ascii :=
  let n := nat_of_ascii c in
  if (97 <=? n) && (n <=? 122) then ascii_of_nat (n - 32) else c.

Definition lower_char (c : ascii) : ascii :=
  let n := nat_of_ascii c in
  if (65 <=? n) && (n <=? 90) then ascii_of_nat (n + 32) else c.

Fixpoint map_chars (f : ascii → ascii) (s : string) : string :=
  match s with
  | String c s' => String (f c) (map_chars f s')
  | EmptyString => EmptyString
  end.

(** [str.upper()] *)
Definition upper (s : string) : string := map_chars upper_char s.

(** [str.capitalize()] *)
Definition capitalize (s : string) : string :=
  match s with
  | String c s' => String (upper_char c) (map_chars lower_char s')
  | EmptyString => EmptyString
  end.

(** [str(v)] *)
Definition py_str (v : value) : string :=
  match v with
  | VStr s => s
  | VList l => "[" +:+ join ", " ((λ s, "'" +:+ s +:+ "'") <$> l) +:+ "]"
  end.

(** ** Commands, handlers, configuration and external services *)

(** The dictionary shape shared by a parsed intent and a pending command. *)
Record command := Command {
  agent : string;
  action : string;
  params : gmap string value;
  needs : list string;
  raw_input : string
}.

(** What calling a handler operation does: it raises (with [str(e)]), returns
    a dictionary, or returns something else (with its [str]).  The entries of
    a result dictionary are text, as every handler under [agents/] returns
    them under the keys the router reads ([result], [content], [link]). *)
Inductive call_result :=
  | Raises (err : string)
  | ReturnsDict (d : gmap string string)
  | ReturnsOther (repr : string).

(** A callable attribute of a handler: the parameter names of
    [inspect.signature] and the behaviour on keyword arguments. *)
Record operation := Operation {
  op_parameters : list string;
  op_call : gmap string value → call_result
}.

(** A handler object: its callable attributes by name, and the positional
    [run(raw_input, parsed)] entry point that the chat branch calls. *)
Record handler := Handler {
  h_operations : gmap string operation;
  h_run : option (string → command → call_result)
}.

(** The entries of [config.json] that the router reads. *)
Record config := Config {
  tpl_missing_params : template;
  tpl_unsupported_agent : template;
  tpl_unsupported_action : template;
  tpl_execution_error : template;
  flag_chat_agent_name : string;
  flag_none : string;
  chat_action_remember : string;
  chat_action_query_memory : string;
  chat_action_get_history : string;
  chat_action_show_capabilities : string;
  msg_remember_success : template;
  msg_memory_query_fail : string;
  msg_no_history : string;
  msg_history_header : template;
  msg_action_complete : string;
  followup_display_prefix : string
}.

(** The external collaborators, as functions of what the router hands them.
    [extract_intent_and_args] returns [None] when it raises;
    [infer_memory] is the language-model call of [_infer_and_store_memory]
    with the parsed JSON object ([None] when it raises or answers nothing
    usable); [answer_from_memory] is the language-model part of
    [_handle_memory_query]; [llm_response] is [_llm_response];
    [all_agents_capabilities] is [_get_all_agents_capabilities]. *)
Record services := Services {
  extract_intent_and_args : string → option command → list entry → option command;
  beautify : string → string → option string → string;
  generate_followup : string → string → string;
  infer_memory :
    string → string → gmap string value → gmap string string → option (gmap string value);
  answer_from_memory : string → gmap string value → string;
  llm_response : string → string;
  all_agents_capabilities : gmap string handler → string
}.

(** A record of one handler invocation: ghost state that makes "which
    operation was called with which arguments" observable. *)
Inductive invocation :=
  | Invoke (agent_name op : string) (kwargs : gmap string value)
  | InvokeRun (agent_name raw : string) (parsed : command).

(** The mutable attributes of [MasterRouter]. *)
Record router := Router {
  memory_manager : MemoryManager.t;
  last_incomplete_command : gmap string command;
  call_log : list invocation
}.

(** ** The state-and-exception monad of the router's methods

    [None] is an exception that leaves the method; the state reached by then
    is kept, as mutations of Python objects are. *)
Definition M (A : Type) : Type := router → option A * router.

#[global] Instance M_ret : MRet M := λ A a r, (Some a, r).
#[global] Instance M_bind : MBind M := λ A B f m r,
  match m r with
  | (Some a, r') => f a r'
  | (None, r') => (None, r')
  end.

Definition raise {A} : M A := λ r, (None, r).
Definition get_state : M router := λ r, (Some r, r).
Definition modify (f : router → router) : M unit := λ r, (Some tt, f r).
Definition or_raise {A} (o : option A) : M A :=
  match o with Some a => mret a | None => raise end.

Definition with_memory (f : MemoryManager.t → MemoryManager.t) (r : router) : router :=
  {| memory_manager := f (memory_manager r);
     last_incomplete_command := last_incomplete_command r;
     call_log := call_log r |}.

Definition with_pending (f : gmap string command → gmap string command) (r : router) : router :=
  {| memory_manager := memory_manager r;
     last_incomplete_command := f (last_incomplete_command r);
     call_log := call_log r |}.

Definition log_call (i : invocation) (r : router) : router :=
  {| memory_manager := memory_manager r;
     last_incomplete_command := last_incomplete_command r;
     call_log := call_log r ++ [i] |}.

(** A computation that leaves one component of the router as it found it,
    also when it ends in an exception. *)
Definition preserves {A X} (proj : router → X) (m : M A) : Prop :=
  ∀ r, proj (m r).2 = proj r.

(** A computation whose final state is always related to its initial state,
    also when it ends in an exception. *)
Definition relates {A} (R : router → router → Prop) (m : M A) : Prop :=
  ∀ r, R r (m r).2.

(** ** master_router.py *)

Section MasterRouter.

Variable cfg : config.
Variable sv : services.
(** [self.mcp_servers]: the handler registry, read-only after start-up. *)
Variable mcp_servers : gmap string handler.

(** [params.get(key, fallback)], read as text. *)
Definition param_text (ps : gmap string value) (key fallback : string) : string :=
  match ps !! key with
  | Some v => py_str v
  | None => fallback
  end.

(** [_reprompt_for_missing_params] *)
Definition reprompt_for_missing_params (command_context : command) : M string :=
  let missing_params_display := replace_underscores <$> needs command_context in
  or_raise (format (tpl_missing_params cfg)
              {[ "needs" := join ", " missing_params_display ]}).

(** [remember_this]; the method returns [{"result": result}] and its only
    caller reads that entry back. *)
Definition remember_this (uid fact raw : string) : M string :=
  r ← get_state;
  m ← or_raise (MemoryManager.remember_fact uid fact (memory_manager r));
  modify (with_memory (λ _, m));;
  result ← or_raise (format (msg_remember_success cfg) {[ "fact" := fact ]});
  modify (with_memory (MemoryManager.add_to_short_term uid raw result));;
  mret result.

(** [_handle_memory_query] *)
Definition handle_memory_query (uid query : string) : M string :=
  r ← get_state;
  let user_ltm := MemoryManager.get_all_long_term (memory_manager r) uid in
  if decide (user_ltm = ∅) then mret ""
  else mret (answer_from_memory sv query user_ltm).

(** [query_memory] *)
Definition query_memory (uid query raw : string) : M string :=
  response ← handle_memory_query uid query;
  let result := if decide (response = "") then msg_memory_query_fail cfg else response in
  modify (with_memory (MemoryManager.add_to_short_term uid raw result));;
  mret result.

(** [get_chat_history] *)
Definition get_chat_history (uid raw : string) : M string :=
  r ← get_state;
  let stm_history := MemoryManager.get_short_term_history (memory_manager r) uid in
  result ←
    match stm_history with
    | [] => mret (msg_no_history cfg)
    | _ =>
        let formatted_history :=
          join nl ((λ msg, "- " +:+ capitalize (role msg) +:+ ": " +:+ content msg)
                     <$> stm_history) in
        or_raise (format (msg_history_header cfg)
                    {[ "formatted_history" := formatted_history ]})
    end;
  modify (with_memory (MemoryManager.add_to_short_term uid raw result));;
  mret result.

(** [_infer_and_store_memory]: the fixed rule for generated code first, the
    delegated inference otherwise; an empty or failed inference stores
    nothing. *)
Definition infer_and_store_memory (uid agent_name act : string)
    (ps : gmap string value) (result_obj : gmap string string) : M unit :=
  let inferred_memory :=
    match result_obj !! "result" with
    | Some code =>
        if decide (agent_name = "developer" ∧ act = "generate_code")
        then Some ({[ "code" := VStr code ]} : gmap string value)
        else infer_memory sv agent_name act ps result_obj
    | None => infer_memory sv agent_name act ps result_obj
    end in
  match inferred_memory with
  | Some data =>
      if decide (data = ∅) then mret tt
      else modify (with_memory (MemoryManager.add_to_long_term uid data))
  | None => mret tt
  end.

(** [{k: v for k, v in params.items() if k in sig.parameters}] *)
Definition filter_params (op : operation) (ps : gmap string value) : gmap string value :=
  filter (λ kv, kv.1 ∈ op_parameters op) ps.

(** The text shown for a retrieved file (the f-string of [_route]). *)
Definition file_content_suffix (file_path code_content : string) : string :=
  nl +:+ nl +:+ "Here is the content of `" +:+ file_path +:+ "`:" +:+ nl +:+ nl
     +:+ "```python" +:+ nl +:+ code_content +:+ nl +:+ "```".

(** The tail of [_route], after the operation has returned [result_obj]. *)
Definition finish_route (uid agent_name act : string) (ps : gmap string value)
    (raw : string) (result_obj : gmap string string) : M string :=
  let raw_result_text := default (msg_action_complete cfg) (result_obj !! "result") in
  let raw_result_text :=
    match result_obj !! "content" with
    | Some code_content =>
        if decide (act = "get_file_content")
        then raw_result_text +:+
               file_content_suffix (param_text ps "file_path" "the file") code_content
        else raw_result_text
    | None => raw_result_text
    end in
  infer_and_store_memory uid agent_name act ps result_obj;;
  modify (with_memory (MemoryManager.add_to_short_term uid raw raw_result_text));;
  let final_response := beautify sv raw raw_result_text (result_obj !! "link") in
  let final_response :=
    if decide (final_response = "" ∨ strip final_response = "")
    then raw_result_text else final_response in
  let followup := generate_followup sv raw raw_result_text in
  let final_response :=
    if decide (followup ≠ "" ∧ upper followup ≠ flag_none cfg)
    then final_response +:+ nl +:+ nl +:+ followup_display_prefix cfg +:+ followup
    else final_response in
  mret (strip final_response).

(** [_route] *)
Definition route (parsed : command) (uid : string) : M string :=
  let agent_name := agent parsed in
  let act := action parsed in
  let ps := params parsed in
  let raw := raw_input parsed in
  if decide (agent_name = flag_chat_agent_name cfg) then
    if decide (act = chat_action_remember cfg) then
      remember_this uid (param_text ps "fact" raw) raw
    else if decide (act = chat_action_query_memory cfg) then
      query_memory uid (param_text ps "query" raw) raw
    else if decide (act = chat_action_get_history cfg) then
      get_chat_history uid raw
    else if decide (act = chat_action_show_capabilities cfg) then
      mret (all_agents_capabilities sv mcp_servers)
    else
      chat_agent ← or_raise (mcp_servers !! flag_chat_agent_name cfg);
      run ← or_raise (h_run chat_agent);
      modify (log_call (InvokeRun agent_name raw parsed));;
      match run raw parsed with
      | ReturnsDict agent_response =>
          let raw_result := default (msg_action_complete cfg) (agent_response !! "result") in
          let beautified_response := beautify sv raw raw_result None in
          mret (if decide (beautified_response = "") then raw_result
                else beautified_response)
      | Raises _ | ReturnsOther _ => raise
      end
  else
    match mcp_servers !! agent_name with
    | None =>
        or_raise (format (tpl_unsupported_agent cfg) {[ "agent" := agent_name ]})
    | Some h =>
        match h_operations h !! act with
        | None =>
            or_raise (format (tpl_unsupported_action cfg)
                        (<[ "agent" := agent_name ]> {[ "action" := act ]}))
        | Some method_to_call =>
            let filtered_params := filter_params method_to_call ps in
            modify (log_call (Invoke agent_name act filtered_params));;
            match op_call method_to_call filtered_params with
            | Raises e =>
                or_raise (format (tpl_execution_error cfg)
                            (<[ "agent" := agent_name ]>
                               (<[ "action" := act ]> {[ "error" := e ]})))
            | ReturnsDict result_obj =>
                finish_route uid agent_name act ps raw result_obj
            | ReturnsOther repr =>
                finish_route uid agent_name act ps raw {[ "result" := repr ]}
            end
        end
    end.

(** The memory fill at the head of [process]: when the parsed intent needs
    [content] and the user's long-term memory has [code], the parameter is
    set from memory and one [content] is removed from the intent's needs. *)
Definition fill_from_memory (ltm : gmap string value) (current_parsed : command) : command :=
  match ltm !! "code" with
  | Some code =>
      if decide ("content" ∈ needs current_parsed) then
        {| agent := agent current_parsed;
           action := action current_parsed;
           params := <[ "content" := code ]> (params current_parsed);
           needs := list_remove_first "content" (needs current_parsed);
           raw_input := raw_input current_parsed |}
      else current_parsed
  | None => current_parsed
  end.

(** The merge of [_handle_incomplete_command]:
    [previous_ctx["params"].update(current_parsed["params"])]. *)
Definition merged_params (previous_ctx current_parsed : command) : gmap string value :=
  dict_update (params previous_ctx) (params current_parsed).

(** [[field for field in original_needs if field not in previous_ctx["params"]]] *)
Definition remaining_needs (original_needs : list string) (ps : gmap string value)
    : list string :=
  filter (λ field, ps !! field = None) original_needs.

(** [_handle_incomplete_command]; a missing entry is the [KeyError] of the
    first line. *)
Definition handle_incomplete_command (uid : string) (current_parsed : command) : M string :=
  r ← get_state;
  previous_ctx ← or_raise (last_incomplete_command r !! uid);
  let original_needs := needs previous_ctx in
  let ps := merged_params previous_ctx current_parsed in
  let remaining := remaining_needs original_needs ps in
  match remaining with
  | [] =>
      modify (with_pending (delete uid));;
      route {| agent := agent previous_ctx; action := action previous_ctx;
               params := ps; needs := original_needs;
               raw_input := raw_input previous_ctx |} uid
  | _ =>
      let previous_ctx :=
        {| agent := agent previous_ctx; action := action previous_ctx;
           params := ps; needs := remaining;
           raw_input := raw_input previous_ctx |} in
      modify (with_pending (insert uid previous_ctx));;
      reprompt_for_missing_params previous_ctx
  end.

(** [process] *)
Definition process (uid user_input : string) : M string :=
  r ← get_state;
  let stm_history := MemoryManager.get_short_term_history (memory_manager r) uid in
  match extract_intent_and_args sv user_input (last_incomplete_command r !! uid)
          stm_history with
  | None =>
      match last_incomplete_command r !! uid with
      | Some pending => reprompt_for_missing_params pending
      | None => mret (llm_response sv "unclear_command")
      end
  | Some current_parsed =>
      let current_parsed :=
        {| agent := agent current_parsed; action := action current_parsed;
           params := params current_parsed; needs := needs current_parsed;
           raw_input := user_input |} in
      let ltm := MemoryManager.get_all_long_term (memory_manager r) uid in
      let current_parsed := fill_from_memory ltm current_parsed in
      match last_incomplete_command r !! uid with
      | Some _ => handle_incomplete_command uid current_parsed
      | None =>
          match needs current_parsed with
          | [] => route current_parsed uid
          | _ =>
              modify (with_pending (insert uid current_parsed));;
              reprompt_for_missing_params current_parsed
          end
      end
  end.

(** The stored pending commands that a run of turns leaves for [uid], one
    per turn, for as long as the entry that was there at the start is still
    pending. *)
Fixpoint pending_trace (uid : string) (inputs : list string) (r : router) : list command :=
  match inputs with
  | [] => []
  | user_input :: inputs' =>
      match last_incomplete_command r !! uid with
      | None => []
      | Some _ =>
          let r' := (process uid user_input r).2 in
          match last_incomplete_command r' !! uid with
          | Some c => c :: pending_trace uid inputs' r'
          | None => []
          end
      end
  end.

End MasterRouter.

(** The text that [_route] records and beautifies for a result dictionary:
    its [result] entry, or the action-complete message, followed for
    [get_file_content] by the file shown. *)
Definition raw_result_text (cfg : config) (act : string) (ps : gmap string value)
    (result_obj : gmap string string) : string :=
  let text := default (msg_action_complete cfg) (result_obj !! "result") in
  match result_obj !! "content" with
  | Some code_content =>
      if decide (act = "get_file_content")
      then text +:+ file_content_suffix (param_text ps "file_path" "the file") code_content
      else text
  | None => text
  end.

(** [result_obj] of [_route] for what the operation returned: a value that
    is not a dictionary is wrapped with its [str]. *)
Definition normalized_result (returned : call_result) : gmap string string :=
  match returned with
  | ReturnsDict d => d
  | ReturnsOther repr => {[ "result" := repr ]}
  | Raises _ => ∅
  end.

(** ** Conversations: the callers of [process]

    [server.py] hands every chat request, with its user id, to [process] on
    the one router of the application, and the next request meets the state
    that the previous one left, also when it ended in an exception. *)

Section Conversations.

Variable cfg : config.
Variable sv : services.
Variable mcp_servers : gmap string handler.

Fixpoint run_turns (turns : list (string * string)) (r : router) : router :=
  match turns with
  | [] => r
  | (uid, user_input) :: turns' =>
      run_turns turns' (process cfg sv mcp_servers uid user_input r).2
  end.

End Conversations.

(** The templates of the configuration name no other field than the
    keywords that the router formats them with. *)
Definition templates_closed (cfg : config) : Prop :=
  (∀ f, Field f ∈ tpl_missing_params cfg → f = "needs")
  ∧ (∀ f, Field f ∈ tpl_unsupported_agent cfg → f = "agent")
  ∧ (∀ f, Field f ∈ tpl_unsupported_action cfg → f ∈ ["agent"; "action"])
  ∧ (∀ f, Field f ∈ tpl_execution_error cfg → f ∈ ["agent"; "action"; "error"]).

(** A computation that invokes at most one handler operation. *)
Definition invokes_at_most_once {A} (m : M A) : Prop :=
  ∀ r, call_log (m r).2 = call_log r ∨ ∃ i, call_log (m r).2 = call_log r ++ [i].

(** ** Markdown fences around model output

    [DeveloperAgentLogic._clean_code_from_llm] (agents/developer_agent/logic.py)
    and the head of [extract_intent_and_args] (utils/interpreter.py) peel the
    code fences off what the language model answered. *)

(** [s.startswith(p)] *)
Fixpoint startswith (s p : string) {struct p} : bool :=
  match p with
  | EmptyString => true
  | String c p' =>
      match s with
      | String d s' => Ascii.eqb c d && startswith s' p'
      | EmptyString => false
      end
  end.

(** [s.endswith(suffix)]: some tail of [s] is [suffix]. *)
Fixpoint endswith (s suffix : string) : bool :=
  String.eqb s suffix
  || match s with
     | String _ s' => endswith s' suffix
     | EmptyString => false
     end.

(** [s[n:]] *)
Fixpoint string_drop (n : nat) (s : string) : string :=
  match n, s with
  | S n', String _ s' => string_drop n' s'
  | _, _ => s
  end.

(** [s[:n]] *)
Fixpoint string_take (n : nat) (s : string) : string :=
  match n, s with
  | S n', String c s' => String c (string_take n' s')
  | _, _ => EmptyString
  end.

(** [s[:-n]] for a positive [n] *)
Definition string_drop_end (n : nat) (s : string) : string :=
  string_take (String.length s - n) s.

Definition fence : string := "```".

(** [_clean_code_from_llm(llm_output, language)] *)
Definition clean_code_from_llm (llm_output language : string) : string :=
  let llm_output :=
    if startswith llm_output (fence +:+ language)
    then string_drop (String.length (fence +:+ language)) llm_output
    else if startswith llm_output fence then string_drop 3 llm_output
    else llm_output in
  let llm_output :=
    if endswith llm_output fence then string_drop_end 3 llm_output else llm_output in
  strip llm_output.

(** The text that [extract_intent_and_args] hands to [json.loads]: the
    model's answer stripped, without a leading [```json] and a trailing
    fence.  [None] is the empty text, for which the unknown intent is
    returned without parsing. *)
Definition json_payload (raw_llm_response : string) : option string :=
  let processed := strip raw_llm_response in
  let processed :=
    if startswith processed (fence +:+ "json")
    then strip (string_drop (String.length (fence +:+ "json")) processed)
    else processed in
  let processed :=
    if endswith processed fence then strip (string_drop_end 3 processed) else processed in
  if decide (processed = "") then None else Some processed.

(** ** base_agent_logic.py and agents/git_agent/logic.py: parameter
    normalisation by signature inspection *)

(** A parameter of [inspect.signature]: its name, and whether it has a
    default. *)
Record parameter := Param { p_name : string; p_has_default : bool }.

(** The loop shared by every [normalize_params]: the parameters without a
    default that [params] lacks, in signature order. *)
Definition missing_parameters (sig : list parameter) (ps : gmap string value) : list string :=
  p_name <$> filter (λ p, p_has_default p = false ∧ ps !! p_name p = None) sig.

(** [BaseAgentLogic.normalize_params(action, params)]; [methods] are the
    callable attributes of the agent with their signatures. *)
Definition normalize_params (methods : gmap string (list parameter)) (act : string)
    (ps : gmap string value) : gmap string value * string * list string :=
  (ps, act,
   match methods !! act with
   | Some sig => missing_parameters sig ps
   | None => []
   end).

(** [dict.pop(key, None)] and the renaming [d[new] = d.pop(old)]. *)
Definition rename_key (old new : string) (ps : gmap string value) : gmap string value :=
  match ps !! old with
  | Some v => <[new := v]> (delete old ps)
  | None => ps
  end.

(** The rewriting steps of [GitAgentLogic.normalize_params]: [code] is
    renamed to [content] when there is no content, and for [push_file]
    [file_name] is renamed to [file_path] when there is no file path, and
    [language] and [task] are dropped. *)
Definition git_rewrite_params (act : string) (ps : gmap string value) : gmap string value :=
  let ps :=
    if decide (is_Some (ps !! "code") ∧ ps !! "content" = None)
    then rename_key "code" "content" ps else ps in
  let ps :=
    if decide (act = "push_file" ∧ ps !! "file_path" = None ∧ is_Some (ps !! "file_name"))
    then rename_key "file_name" "file_path" ps else ps in
  if decide (act = "push_file") then delete "task" (delete "language" ps) else ps.

(** [GitAgentLogic.normalize_params(action, params)].  [generate_code] is
    [DeveloperAgentLogic.generate_code] on the language and the task, [None]
    when it raises, which then leaves [normalize_params] too. *)
Definition git_normalize_params
    (generate_code : value → value → option (gmap string string))
    (methods : gmap string (list parameter)) (act : string) (ps : gmap string value)
    : option (gmap string value * string * list string) :=
  let finish (ps : gmap string value) :=
    normalize_params methods act (git_rewrite_params act ps) in
  match ps !! "task" with
  | Some task =>
      if decide (act = "push_file" ∧ ps !! "content" = None) then
        match ps !! "language" with
        | None => Some (ps, act, ["language"])
        | Some language =>
            match generate_code language task with
            | Some code_result =>
                let generated :=
                  match code_result !! "code" with
                  | Some code => code
                  | None => default "" (code_result !! "result")
                  end in
                Some (finish (<[ "content" := VStr generated ]> ps))
            | None => None
            end
        end
      else Some (finish ps)
  | None => Some (finish ps)
  end.

(** ** A sample deployment, used to run the definitions on concrete inputs *)

Definition sample_cfg : config :=
  {| tpl_missing_params := [Lit "Please provide: "; Field "needs"];
     tpl_unsupported_agent := [Lit "Unsupported agent: "; Field "agent"];
     tpl_unsupported_action :=
       [Lit "Agent "; Field "agent"; Lit " cannot do "; Field "action"];
     tpl_execution_error :=
       [Field "agent"; Lit " "; Field "action"; Lit " failed: "; Field "error"];
     flag_chat_agent_name := "chat";
     flag_none := "NONE";
     chat_action_remember := "remember_this";
     chat_action_query_memory := "query_memory";
     chat_action_get_history := "get_chat_history";
     chat_action_show_capabilities := "show_capabilities";
     msg_remember_success := [Lit "Remembered: "; Field "fact"];
     msg_memory_query_fail := "I do not know that yet.";
     msg_no_history := "No history yet.";
     msg_history_header := [Lit "History:"; Field "formatted_history"];
     msg_action_complete := "Action complete.";
     followup_display_prefix := "Next: " |}.

(** Collaborators that answer nothing: no intent, no beautified text, no
    follow-up, no inferred memory. *)
Definition quiet_services : services :=
  {| extract_intent_and_args := λ _ _ _, None;
     beautify := λ _ raw_result _, raw_result;
     generate_followup := λ _ _, "";
     infer_memory := λ _ _ _ _, None;
     answer_from_memory := λ _ _, "";
     llm_response := λ _, "Sorry, I did not understand.";
     all_agents_capabilities := λ _, "" |}.

(** The same, with an extractor that answers with a fixed intent. *)
Definition services_extracting (p : command) : services :=
  {| extract_intent_and_args := λ _ _ _, Some p;
     beautify := beautify quiet_services;
     generate_followup := generate_followup quiet_services;
     infer_memory := infer_memory quiet_services;
     answer_from_memory := answer_from_memory quiet_services;
     llm_response := llm_response quiet_services;
     all_agents_capabilities := all_agents_capabilities quiet_services |}.

(** The same as [quiet_services], with an inference step that proposes to
    store the parameters it is shown. *)
Definition services_storing_params : services :=
  {| extract_intent_and_args := extract_intent_and_args quiet_services;
     beautify := beautify quiet_services;
     generate_followup := generate_followup quiet_services;
     infer_memory := λ _ _ ps _, Some ps;
     answer_from_memory := answer_from_memory quiet_services;
     llm_response := llm_response quiet_services;
     all_agents_capabilities := all_agents_capabilities quiet_services |}.

Definition sample_git : handler :=
  {| h_operations :=
       {[ "list_repos" :=
            {| op_parameters := [];
               op_call := λ _, ReturnsDict {[ "result" := "You have no repositories." ]} |};
          "delete_repo" :=
            {| op_parameters := ["repo_name"];
               op_call := λ _, Raises "404 Not Found" |};
          "push_file" :=
            {| op_parameters :=
                 ["repo_name"; "file_path"; "content"; "commit_message"; "branch"; "sha"];
               op_call := λ _, ReturnsDict {[ "result" := "File pushed." ]} |} ]};
     h_run := None |}.

Definition sample_jira : handler :=
  {| h_operations :=
       {[ "create_ticket" :=
            {| op_parameters := ["project_key"; "title"; "description"; "issue_type"];
               op_call := λ _, ReturnsDict {[ "result" := "Ticket created." ]} |} ]};
     h_run := None |}.

(** A handler whose [get_file_content] takes a [path] argument. *)
Definition sample_docs : handler :=
  {| h_operations :=
       {[ "get_file_content" :=
            {| op_parameters := ["path"];
               op_call := λ _, ReturnsDict
                 (<[ "result" := "Retrieved." ]> {[ "content" := "print(1)" ]}) |} ]};
     h_run := None |}.

Definition sample_chat : handler :=
  {| h_operations := ∅;
     h_run := Some (λ _ _, ReturnsDict {[ "result" := "Hello!" ]}) |}.

Definition sample_registry : gmap string handler :=
  {[ "git" := sample_git; "jira" := sample_jira; "docs" := sample_docs;
     "chat" := sample_chat ]}.

(** [MasterRouter.__init__]: fresh memory with the default capacity, nothing
    pending. *)
Definition fresh_router : router :=
  {| memory_manager := MemoryManager.init MemoryManager.default_stm_max_len;
     last_incomplete_command := ∅;
     call_log := [] |}.

(** A ticket that still lacks its project key and its description. *)
Definition pending_ticket : command :=
  {| agent := "jira"; action := "create_ticket";
     params := {[ "title" := VStr "Bug" ]};
     needs := ["project_key"; "description"];
     raw_input := "open a ticket called Bug" |}.

Definition router_awaiting_ticket : router :=
  {| memory_manager := MemoryManager.init MemoryManager.default_stm_max_len;
     last_incomplete_command := {[ "u1" := pending_ticket ]};
     call_log := [] |}.

Definition intent_project_key : command :=
  {| agent := "jira"; action := "create_ticket";
     params := {[ "project_key" := VStr "ABC" ]};
     needs := ["description"];
     raw_input := "ABC" |}.

(** The same ticket once the project key has been merged in. *)
Definition ticket_with_key : command :=
  {| agent := "jira"; action := "create_ticket";
     params := <[ "project_key" := VStr "ABC" ]> {[ "title" := VStr "Bug" ]};
     needs := ["description"];
     raw_input := "open a ticket called Bug" |}.

(** A file push that still lacks its content, for a user whose long-term
    memory holds generated code. *)
Definition pending_push : command :=
  {| agent := "git"; action := "push_file";
     params := <[ "repo_name" := VStr "demo" ]> {[ "file_path" := VStr "a.py" ]};
     needs := ["content"];
     raw_input := "push a.py to demo" |}.

Definition router_awaiting_content : router :=
  {| memory_manager :=
       MemoryManager.add_to_long_term "u1" {[ "code" := VStr "print(1)" ]}
         (MemoryManager.init MemoryManager.default_stm_max_len);
     last_incomplete_command := {[ "u1" := pending_push ]};
     call_log := [] |}.

(** Three follow-up intents: the user types the content; the extractor
    repeats that the content is needed; the user names a branch only. *)
Definition intent_typed_content : command :=
  {| agent := "git"; action := "push_file";
     params := {[ "content" := VStr "x = 2" ]};
     needs := [];
     raw_input := "x = 2" |}.

Definition intent_needs_content : command :=
  {| agent := "git"; action := "push_file";
     params := {[ "branch" := VStr "dev" ]};
     needs := ["content"];
     raw_input := "on branch dev" |}.

Definition intent_branch_only : command :=
  {| agent := "git"; action := "push_file";
     params := {[ "branch" := VStr "dev" ]};
     needs := [];
     raw_input := "on branch dev" |}.

(** Fully specified commands for the dispatch engine. *)
Definition command_delete_repo : command :=
  {| agent := "git"; action := "delete_repo";
     params := {[ "repo_name" := VStr "demo" ]};
     needs := [];
     raw_input := "delete the demo repo" |}.

Definition command_list_repos (ps : gmap string value) : command :=
  {| agent := "git"; action := "list_repos"; params := ps; needs := [];
     raw_input := "list my repos" |}.

Definition command_get_file (ps : gmap string value) : command :=
  {| agent := "docs"; action := "get_file_content"; params := ps; needs := [];
     raw_input := "show the notes" |}.

Definition command_small_talk : command :=
  {| agent := "chat"; action := "small_talk"; params := ∅; needs := [];
     raw_input := "hi there" |}.

Definition command_unknown_agent : command :=
  {| agent := "weather"; action := "forecast"; params := ∅; needs := [];
     raw_input := "will it rain" |}.

(** A developer handler and a registry that has it. *)
Definition sample_generate_code : operation :=
  {| op_parameters := ["language"; "task"];
     op_call := λ _, ReturnsDict (<[ "result" := "print(1)" ]> {[ "code" := "print(1)" ]}) |}.

Definition sample_developer : handler :=
  {| h_operations := {[ "generate_code" := sample_generate_code ]}; h_run := None |}.

Definition registry_with_developer : gmap string handler :=
  <[ "developer" := sample_developer ]> sample_registry.

Definition command_generate_code : command :=
  {| agent := "developer"; action := "generate_code";
     params := <[ "language" := VStr "python" ]> {[ "task" := VStr "print one" ]};
     needs := [];
     raw_input := "write code that prints one" |}.

Definition sample_list_repos : operation :=
  {| op_parameters := [];
     op_call := λ _, ReturnsDict {[ "result" := "You have no repositories." ]} |}.

(** Chat commands for the memory actions. *)
Definition command_remember (ps : gmap string value) : command :=
  {| agent := "chat"; action := "remember_this"; params := ps; needs := [];
     raw_input := "remember that I like tea" |}.

Definition command_query_memory : command :=
  {| agent := "chat"; action := "query_memory";
     params := {[ "query" := VStr "what do I like" ]}; needs := [];
     raw_input := "what do I like?" |}.

Definition command_get_history : command :=
  {| agent := "chat"; action := "get_chat_history"; params := ∅; needs := [];
     raw_input := "show our chat" |}.

(** The signatures of [JiraAgentLogic.create_ticket] and of
    [GitAgentLogic.push_file]. *)
Definition jira_methods : gmap string (list parameter) :=
  {[ "create_ticket" :=
       [Param "project_key" false; Param "title" false;
        Param "description" true; Param "issue_type" true] ]}.

Definition git_methods : gmap string (list parameter) :=
  {[ "push_file" :=
       [Param "repo_name" false; Param "file_path" false; Param "content" false;
        Param "commit_message" true; Param "branch" true; Param "sha" true] ]}.

(** A ticket stored with the needs that signature inspection reports. *)
Definition pending_ticket_inspected : command :=
  {| agent := "jira"; action := "create_ticket";
     params := {[ "description" := VStr "It crashes" ]};
     needs := ["project_key"; "title"];
     raw_input := "open a ticket: it crashes" |}.

(** Parameters of a push that carry the code under [code] and the path
    under [file_name]. *)
Definition params_with_code : gmap string value :=
  <[ "repo_name" := VStr "demo" ]>
    (<[ "file_name" := VStr "a.py" ]>
       (<[ "code" := VStr "print(1)" ]> {[ "language" := VStr "python" ]})).

Definition push_file_signature : list parameter :=
  [Param "repo_name" false; Param "file_path" false; Param "content" false;
   Param "commit_message" true; Param "branch" true; Param "sha" true].

(** ** Properties of the memory store *)

Section Deque.

Implicit Types (d xs : list entry) (x : entry) (n : nat).

Lemma lastn_length {A} n (l : list A) : length (lastn n l) = length l `min` n.
Proof. unfold lastn. rewrite length_drop. lia. Qed.

Lemma lastn_all {A} n (l : list A) : length l ≤ n → lastn n l = l.
Proof.
  intros Hle. unfold lastn. replace (length l - n) with 0 by lia. reflexivity.
Qed.

Lemma lastn_lastn_app {A} n (l ys : list A) :
  lastn n (lastn n l ++ ys) = lastn n (l ++ ys).
Proof.
  unfold lastn at 1 3. rewrite length_app, lastn_length, length_app.
  unfold lastn. set (a := length l - n).
  rewrite <- (drop_app_le l ys a) by (subst a; lia).
  rewrite drop_drop. f_equal. subst a. lia.
Qed.

Lemma deque_append_lastn n d x :
  length d ≤ n → deque_append n d x = lastn n (d ++ [x]).
Proof.
  intros Hle. unfold deque_append, lastn. rewrite length_app. simpl.
  case_decide as Hfull.
  - replace (length d + 1 - n) with 1 by lia. reflexivity.
  - replace (length d + 1 - n) with 0 by lia. reflexivity.
Qed.

Lemma deque_append_bounded n d x :
  length d ≤ n → length (deque_append n d x) ≤ n.
Proof.
  intros Hle. rewrite deque_append_lastn by done. rewrite lastn_length. lia.
Qed.

(** Pushing a batch of entries keeps the most recent [n] of everything. *)
Lemma foldl_deque_append n xs : ∀ d,
  length d ≤ n → foldl (deque_append n) d xs = lastn n (d ++ xs).
Proof.
  induction xs as [|x xs IH]; intros d Hle; simpl.
  - rewrite app_nil_r. symmetry. by apply lastn_all.
  - rewrite IH by by apply deque_append_bounded.
    rewrite deque_append_lastn by done.
    rewrite lastn_lastn_app, <- app_assoc. reflexivity.
Qed.

End Deque.

Section MemoryStore.

Import MemoryManager.

Lemma init_bounded n : stm_bounded (init n).
Proof. intros uid d Hd. simpl in Hd. by rewrite lookup_empty in Hd. Qed.

Lemma history_bounded m uid :
  stm_bounded m → length (get_short_term_history m uid) ≤ stm_max_len m.
Proof.
  intros Hm. unfold get_short_term_history.
  destruct (short_term_memory m !! uid) as [d|] eqn:Hd; simpl.
  - by apply (Hm uid).
  - lia.
Qed.

Lemma add_to_short_term_history m uid u a :
  stm_bounded m →
  get_short_term_history (add_to_short_term uid u a m) uid =
    lastn (stm_max_len m)
      (get_short_term_history m uid ++ [Entry "user" u; Entry "assistant" a]).
Proof.
  intros Hm. pose proof (history_bounded m uid Hm) as Hlen.
  unfold add_to_short_term, get_short_term_history in *. simpl.
  rewrite lookup_insert_eq. simpl.
  set (d := default [] (short_term_memory m !! uid)) in *.
  change (deque_append (stm_max_len m) (deque_append (stm_max_len m) d (Entry "user" u))
            (Entry "assistant" a))
    with (foldl (deque_append (stm_max_len m)) d [Entry "user" u; Entry "assistant" a]).
  by apply foldl_deque_append.
Qed.

Lemma add_to_short_term_bounded m uid u a :
  stm_bounded m → stm_bounded (add_to_short_term uid u a m).
Proof.
  intros Hm uid' d'. unfold add_to_short_term. simpl.
  destruct (decide (uid = uid')) as [->|Hne].
  - rewrite lookup_insert_eq. intros [= <-].
    do 2 apply deque_append_bounded.
    by apply (history_bounded m uid').
  - rewrite lookup_insert_ne by done. apply Hm.
Qed.

Lemma add_to_short_term_other m uid uid' u a :
  uid ≠ uid' →
  get_short_term_history (add_to_short_term uid u a m) uid' =
    get_short_term_history m uid'.
Proof.
  intros Hne. unfold get_short_term_history, add_to_short_term. simpl.
  by rewrite lookup_insert_ne.
Qed.

Lemma add_to_long_term_lookup m uid data k :
  get_all_long_term (add_to_long_term uid data m) uid !! k =
    match data !! k with
    | Some v => Some v
    | None => get_all_long_term m uid !! k
    end.
Proof.
  unfold add_to_long_term, get_all_long_term at 1. simpl.
  rewrite lookup_insert_eq. simpl. unfold dict_update.
  rewrite lookup_union. destruct (data !! k), (get_all_long_term m uid !! k); done.
Qed.

Lemma add_to_long_term_other m uid uid' data :
  uid ≠ uid' →
  get_all_long_term (add_to_long_term uid data m) uid' = get_all_long_term m uid'.
Proof.
  intros Hne. unfold get_all_long_term, add_to_long_term. simpl.
  by rewrite lookup_insert_ne.
Qed.

Lemma add_to_long_term_bounded m uid data :
  stm_bounded m → stm_bounded (add_to_long_term uid data m).
Proof. intros Hm. exact Hm. Qed.

Lemma remember_fact_bounded m m' uid fact :
  remember_fact uid fact m = Some m' → stm_bounded m → stm_bounded m'.
Proof.
  unfold remember_fact. intros Hm' Hm.
  repeat case_match; simplify_eq; exact Hm.
Qed.

End MemoryStore.

(** C8.  Recording an interaction appends the user entry and then the
    assistant entry to the user's transcript and keeps the most recent
    [stm_max_len] entries of the whole, in insertion order; the capacity of a
    manager built without argument is 20; and pushing [n + 1] entries onto a
    transcript capped at [n] leaves exactly the last [n] of them, the oldest
    pushed entry and everything before it having been evicted. *)
Theorem short_term_transcript_fifo
    (m : MemoryManager.t) (uid u a : string) (n : nat) (d xs : list entry) :
  MemoryManager.stm_bounded m →
  length d ≤ n →
  length xs = S n →
  MemoryManager.get_short_term_history (MemoryManager.add_to_short_term uid u a m) uid =
    lastn (MemoryManager.stm_max_len m)
      (MemoryManager.get_short_term_history m uid
         ++ [Entry "user" u; Entry "assistant" a])
  ∧ MemoryManager.stm_max_len (MemoryManager.init MemoryManager.default_stm_max_len) = 20
  ∧ foldl (deque_append n) d xs = drop 1 xs
  ∧ length (foldl (deque_append n) d xs) = n.
Proof.
  intros Hm Hd Hxs.
  split; [by apply add_to_short_term_history|].
  split; [reflexivity|].
  assert (foldl (deque_append n) d xs = drop 1 xs) as Heq.
  { rewrite foldl_deque_append by done. unfold lastn.
    rewrite length_app, Hxs.
    replace (length d + S n - n) with (length d + 1) by lia.
    rewrite drop_app_add. reflexivity. }
  split; [exact Heq|]. rewrite Heq, length_drop. lia.
Qed.

Lemma short_term_transcript_fifo_witness :
  MemoryManager.get_short_term_history
    (MemoryManager.add_to_short_term "u1" "hi" "hello" (MemoryManager.init 3)) "u1" =
    [Entry "user" "hi"; Entry "assistant" "hello"]
  ∧ foldl (deque_append 2) [Entry "user" "old"]
      [Entry "user" "a"; Entry "assistant" "b"; Entry "user" "c"] =
    [Entry "assistant" "b"; Entry "user" "c"].
Proof.
  pose proof (short_term_transcript_fifo (MemoryManager.init 3) "u1" "hi" "hello" 2
                [Entry "user" "old"]
                [Entry "user" "a"; Entry "assistant" "b"; Entry "user" "c"]
                (init_bounded 3) ltac:(simpl; lia) ltac:(reflexivity))
    as (H1 & _ & H2 & _).
  split; [rewrite H1; reflexivity | rewrite H2; reflexivity].
Defined.

(** C9, as the code has it.  [remember_fact] appends the fact to the user's
    [user_memos] list (a one-element list when the key was absent), keeps
    every earlier memo in place and leaves every other key alone; a long-term
    merge is last-write-wins for every key of the update, [user_memos]
    included, and leaves the keys outside the update alone. *)
Theorem long_term_memos_and_upsert
    (m : MemoryManager.t) (uid fact : string) (data : gmap string value)
    (earlier : option (list string)) :
  MemoryManager.get_from_long_term m uid "user_memos" = VList <$> earlier →
  (∃ m',
      MemoryManager.remember_fact uid fact m = Some m'
      ∧ MemoryManager.get_from_long_term m' uid "user_memos" =
          Some (VList (default [] earlier ++ [fact]))
      ∧ (∀ k, k ≠ "user_memos" →
           MemoryManager.get_from_long_term m' uid k =
             MemoryManager.get_from_long_term m uid k)
      ∧ MemoryManager.short_term_memory m' = MemoryManager.short_term_memory m)
  ∧ (∀ k,
       MemoryManager.get_from_long_term (MemoryManager.add_to_long_term uid data m) uid k =
         match data !! k with
         | Some v => Some v
         | None => MemoryManager.get_from_long_term m uid k
         end).
Proof.
  intros Hmemos. split.
  - unfold MemoryManager.get_from_long_term in *.
    unfold MemoryManager.remember_fact. rewrite Hmemos.
    destruct earlier as [memos|]; simpl; eexists; (split; [reflexivity|]).
    all: set (user := MemoryManager.get_all_long_term m uid).
    all: unfold MemoryManager.get_all_long_term; simpl.
    all: rewrite lookup_insert_eq; simpl.
    all: split; [by rewrite lookup_insert_eq|].
    all: split; [|reflexivity].
    all: intros k Hk; by rewrite lookup_insert_ne.
  - intros k. apply add_to_long_term_lookup.
Qed.

Lemma long_term_memos_and_upsert_witness :
  ∃ m',
    MemoryManager.remember_fact "u1" "likes tea" (MemoryManager.init 20) = Some m'
    ∧ MemoryManager.get_from_long_term m' "u1" "user_memos" = Some (VList ["likes tea"]).
Proof.
  destruct (long_term_memos_and_upsert (MemoryManager.init 20) "u1" "likes tea" ∅ None
              ltac:(reflexivity)) as [(m' & Hm' & Hmemos & _) _].
  exists m'. split; [exact Hm' | exact Hmemos].
Defined.

(** C9, the claim as stated fails: a merge whose update carries a
    [user_memos] key replaces the memo list, and the memo recorded before is
    gone. *)
Lemma merge_overwrites_user_memos :
  ∃ m,
    MemoryManager.remember_fact "u1" "likes tea" (MemoryManager.init 20) = Some m
    ∧ MemoryManager.get_from_long_term m "u1" "user_memos" = Some (VList ["likes tea"])
    ∧ MemoryManager.get_from_long_term
        (MemoryManager.add_to_long_term "u1" {[ "user_memos" := VList ["owner is bob"] ]} m)
        "u1" "user_memos" = Some (VList ["owner is bob"]).
Proof.
  eexists. split; [reflexivity|]. split; vm_compute; reflexivity.
Qed.

(** ** Templates and strings *)

Lemma string_app_assoc (a b c : string) : (a +:+ b) +:+ c = a +:+ b +:+ c.
Proof.
  induction a as [|ch a IH]; [reflexivity|].
  change (String ch ((a +:+ b) +:+ c) = String ch (a +:+ b +:+ c)). by rewrite IH.
Qed.

Lemma string_app_nil_r (a : string) : a +:+ "" = a.
Proof.
  induction a as [|ch a IH]; [reflexivity|].
  change (String ch (a +:+ "") = String ch a). by rewrite IH.
Qed.

Lemma mentions_prepend (s sub pre : string) : mentions s sub → mentions (pre +:+ s) sub.
Proof.
  intros (p & q & ->). exists (pre +:+ p), q. by rewrite string_app_assoc.
Qed.

(** A formatted template shows the argument of each of its fields. *)
Lemma format_mentions (t : template) (kw : gmap string string) (f v out : string) :
  format t kw = Some out → Field f ∈ t → kw !! f = Some v → mentions out v.
Proof.
  revert out. induction t as [|p t IH]; intros out Hout Hin Hf.
  - by apply elem_of_nil in Hin.
  - apply elem_of_cons in Hin. destruct p as [s|g]; simpl in Hout.
    + destruct (format t kw) as [rest|] eqn:Hrest; simplify_eq/=.
      destruct Hin as [?|Hin]; [done|]. apply mentions_prepend. by apply IH.
    + destruct (kw !! g) as [w|] eqn:Hg; [|done].
      destruct (format t kw) as [rest|] eqn:Hrest; simplify_eq/=.
      destruct Hin as [Heq|Hin].
      * simplify_eq. exists "", rest. reflexivity.
      * apply mentions_prepend. by apply IH.
Qed.

(** Formatting succeeds when every field has an argument. *)
Lemma format_is_Some (t : template) (kw : gmap string string) :
  (∀ f, Field f ∈ t → is_Some (kw !! f)) → is_Some (format t kw).
Proof.
  induction t as [|p t IH]; intros Hall; simpl; [by eexists|].
  destruct IH as [rest Hrest].
  { intros f Hf. apply Hall. by right. }
  destruct p as [s|g]; rewrite Hrest; simpl; [by eexists|].
  destruct (Hall g) as [w ->]; [by left|]. by eexists.
Qed.

(** ** Lists of needs *)

Lemma list_remove_first_split (x : string) (l : list string) :
  x ∈ l → ∃ l1 l2, l = l1 ++ x :: l2 ∧ (x ∉ l1) ∧ list_remove_first x l = l1 ++ l2.
Proof.
  induction l as [|y l IH]; intros Hin; [by apply elem_of_nil in Hin|].
  simpl. destruct (decide (x = y)) as [->|Hne].
  - exists [], l. split; [done|]. split; [apply not_elem_of_nil|done].
  - apply elem_of_cons in Hin as [?|Hin]; [done|].
    destruct (IH Hin) as (l1 & l2 & -> & Hl1 & ->).
    exists (y :: l1), l2. split; [done|]. split; [|done].
    rewrite not_elem_of_cons. done.
Qed.

Section Needs.

Lemma remaining_needs_sublist (original : list string) (ps : gmap string value) :
  remaining_needs original ps `sublist_of` original.
Proof. apply sublist_filter. Qed.

Lemma remaining_needs_length (original : list string) (ps : gmap string value) :
  length (remaining_needs original ps) ≤ length original.
Proof. apply length_filter. Qed.

Lemma elem_of_remaining_needs (original : list string) (ps : gmap string value) k :
  k ∈ remaining_needs original ps ↔ ps !! k = None ∧ k ∈ original.
Proof. apply (list_elem_of_filter (λ field, ps !! field = None)). Qed.

Lemma merged_params_lookup (C P : command) k :
  merged_params C P !! k =
    match params P !! k with
    | Some v => Some v
    | None => params C !! k
    end.
Proof.
  unfold merged_params, dict_update. rewrite lookup_union.
  destruct (params P !! k), (params C !! k); done.
Qed.

End Needs.

(** ** Frame rules: what dispatch never touches *)

Section Frames.

Context (cfg : config) (sv : services) (mcp_servers : gmap string handler).
Context {X : Type} (proj : router → X).

Lemma preserves_ret {A} (a : A) : preserves proj (mret a).
Proof. intros r. reflexivity. Qed.

Lemma preserves_raise {A} : preserves proj (@raise A).
Proof. intros r. reflexivity. Qed.

Lemma preserves_or_raise {A} (o : option A) : preserves proj (or_raise o).
Proof. intros r. by destruct o. Qed.

Lemma preserves_get_state : preserves proj get_state.
Proof. intros r. reflexivity. Qed.

Lemma preserves_bind {A B} (m : M A) (f : A → M B) :
  preserves proj m → (∀ a, preserves proj (f a)) → preserves proj (m ≫= f).
Proof.
  intros Hm Hf r. unfold mbind, M_bind. specialize (Hm r).
  destruct (m r) as [[a|] r']; simpl in *; [|done].
  by rewrite Hf.
Qed.

End Frames.

Lemma with_memory_keeps_pending f :
  preserves last_incomplete_command (modify (with_memory f)).
Proof. intros r. reflexivity. Qed.

Lemma with_memory_keeps_log f : preserves call_log (modify (with_memory f)).
Proof. intros r. reflexivity. Qed.

Lemma log_call_keeps_pending i : preserves last_incomplete_command (modify (log_call i)).
Proof. intros r. reflexivity. Qed.

Create HintDb frame.
#[global] Hint Resolve preserves_ret preserves_raise preserves_or_raise
  preserves_get_state with_memory_keeps_pending with_memory_keeps_log
  log_call_keeps_pending : frame.

Ltac frame :=
  repeat first
    [ apply preserves_bind; [|intros ?]
    | progress auto with frame
    | case_decide
    | case_match ].

Section DispatchFrames.

Context (cfg : config) (sv : services) (mcp_servers : gmap string handler).

Lemma keeps_pending_reprompt c :
  preserves last_incomplete_command (reprompt_for_missing_params cfg c).
Proof. unfold reprompt_for_missing_params. frame. Qed.

Lemma keeps_pending_remember_this uid fact raw :
  preserves last_incomplete_command (remember_this cfg uid fact raw).
Proof. unfold remember_this. frame. Qed.

Lemma keeps_pending_query_memory uid query raw :
  preserves last_incomplete_command (query_memory cfg sv uid query raw).
Proof. unfold query_memory, handle_memory_query. frame. Qed.

Lemma keeps_pending_get_chat_history uid raw :
  preserves last_incomplete_command (get_chat_history cfg uid raw).
Proof. unfold get_chat_history. frame. Qed.

(** The inference step and the tail of dispatch touch the memory only. *)
Lemma infer_frame {X} (proj : router → X) uid agent_name act ps result_obj :
  (∀ f, preserves proj (modify (with_memory f))) →
  preserves proj (infer_and_store_memory sv uid agent_name act ps result_obj).
Proof.
  intros Hmem. unfold infer_and_store_memory.
  repeat case_match; auto using preserves_ret.
Qed.

Lemma finish_route_frame {X} (proj : router → X) uid agent_name act ps raw result_obj :
  (∀ f, preserves proj (modify (with_memory f))) →
  preserves proj (finish_route cfg sv uid agent_name act ps raw result_obj).
Proof.
  intros Hmem. unfold finish_route.
  apply preserves_bind; [by apply infer_frame|]. intros _.
  apply preserves_bind; [apply Hmem|]. intros _. apply preserves_ret.
Qed.

(** Dispatch never creates, changes or deletes a pending command. *)
Lemma keeps_pending_route parsed uid :
  preserves last_incomplete_command (route cfg sv mcp_servers parsed uid).
Proof.
  unfold route.
  repeat case_decide;
    auto using keeps_pending_remember_this, keeps_pending_query_memory,
      keeps_pending_get_chat_history with frame.
  - frame.
  - repeat case_match; auto with frame;
      (apply preserves_bind; [auto with frame|intros _]);
      repeat case_match;
      auto using finish_route_frame, with_memory_keeps_pending with frame.
Qed.

End DispatchFrames.

(** ** The pending-command state machine *)

Section PendingCommand.

Context (cfg : config) (sv : services) (mcp_servers : gmap string handler).

#[local] Abbreviation handle_incomplete_command :=
  (handle_incomplete_command cfg sv mcp_servers).
#[local] Abbreviation route := (route cfg sv mcp_servers).
#[local] Abbreviation process := (process cfg sv mcp_servers).
#[local] Abbreviation pending_trace := (pending_trace cfg sv mcp_servers).

Ltac run_M :=
  repeat (progress (unfold mbind, M_bind, mret, M_ret, get_state, modify, or_raise, raise;
                    cbv beta iota zeta)).

(** The two outcomes of a merge turn, by the emptiness of what remains. *)
Lemma handle_incomplete_command_done r uid C P :
  last_incomplete_command r !! uid = Some C →
  remaining_needs (needs C) (merged_params C P) = [] →
  handle_incomplete_command uid P r =
    route {| agent := agent C; action := action C; params := merged_params C P;
             needs := needs C; raw_input := raw_input C |} uid
      (with_pending (delete uid) r).
Proof.
  intros HC Hrem. unfold handle_incomplete_command. run_M.
  rewrite HC, Hrem. reflexivity.
Qed.

Lemma handle_incomplete_command_wait r uid C P :
  last_incomplete_command r !! uid = Some C →
  remaining_needs (needs C) (merged_params C P) ≠ [] →
  handle_incomplete_command uid P r =
    (format (tpl_missing_params cfg)
       {[ "needs" := join ", " (replace_underscores
                                  <$> remaining_needs (needs C) (merged_params C P)) ]},
     with_pending
       (insert uid
          {| agent := agent C; action := action C; params := merged_params C P;
             needs := remaining_needs (needs C) (merged_params C P);
             raw_input := raw_input C |}) r).
Proof.
  intros HC Hrem. unfold handle_incomplete_command. run_M.
  rewrite HC. destruct (remaining_needs _ _) as [|k rest] eqn:Hk; [done|].
  unfold reprompt_for_missing_params. run_M.
  by destruct (format _ _).
Qed.

(** C1.  With a pending command [C] stored for the user, a merge turn with
    the parsed intent [P] takes [P]'s value for every key [P] supplies and
    [C]'s value otherwise; what remains is the needs of [C], in their
    order, that the merged parameters lack.  When nothing remains the entry
    is deleted and [C], with the merged parameters, is dispatched; otherwise
    the entry is kept with the merged parameters and the remaining needs,
    and the reply is the missing-parameters prompt formatted with the
    remaining needs, which it lists wherever the prompt has that field
    (and which is produced whenever that is the prompt's only field). *)
Theorem merge_turn_spec (r : router) (uid : string) (C P : command) :
  last_incomplete_command r !! uid = Some C →
  let merged := merged_params C P in
  let remaining := filter (λ k, merged !! k = None) (needs C) in
  let listed := join ", " (replace_underscores <$> remaining) in
  (∀ k, merged !! k =
          match params P !! k with
          | Some v => Some v
          | None => params C !! k
          end)
  ∧ (remaining = [] →
       handle_incomplete_command uid P r =
         route {| agent := agent C; action := action C; params := merged;
                  needs := needs C; raw_input := raw_input C |} uid
           (with_pending (delete uid) r)
       ∧ last_incomplete_command (handle_incomplete_command uid P r).2 !! uid = None)
  ∧ (remaining ≠ [] →
       handle_incomplete_command uid P r =
         (format (tpl_missing_params cfg) {[ "needs" := listed ]},
          with_pending
            (insert uid
               {| agent := agent C; action := action C; params := merged;
                  needs := remaining; raw_input := raw_input C |}) r)
       ∧ (∀ msg, (handle_incomplete_command uid P r).1 = Some msg →
                 Field "needs" ∈ tpl_missing_params cfg → mentions msg listed)
       ∧ ((∀ f, Field f ∈ tpl_missing_params cfg → f = "needs") →
          is_Some (handle_incomplete_command uid P r).1)).
Proof.
  intros HC merged remaining listed. split; [apply merged_params_lookup|]. split.
  - intros Hrem.
    rewrite (handle_incomplete_command_done r uid C P HC Hrem). split; [done|].
    rewrite keeps_pending_route. simpl. apply lookup_delete_eq.
  - intros Hrem.
    rewrite (handle_incomplete_command_wait r uid C P HC Hrem). split; [done|].
    simpl. split.
    + intros msg Hmsg Hfield.
      eapply format_mentions; [exact Hmsg|exact Hfield|]. apply lookup_singleton_eq.
    + intros Hfields. apply format_is_Some. intros f Hf.
      rewrite (Hfields f Hf), lookup_singleton_eq. by eexists.
Qed.

(** [process] with a pending command: a failed extraction repeats the prompt,
    anything else goes through the memory fill and then the merge. *)
Lemma process_pending r uid user_input C :
  last_incomplete_command r !! uid = Some C →
  process uid user_input r =
    match extract_intent_and_args sv user_input (Some C)
            (MemoryManager.get_short_term_history (memory_manager r) uid) with
    | None => reprompt_for_missing_params cfg C r
    | Some P =>
        handle_incomplete_command uid
          (fill_from_memory (MemoryManager.get_all_long_term (memory_manager r) uid)
             {| agent := agent P; action := action P; params := params P;
                needs := needs P; raw_input := user_input |}) r
    end.
Proof.
  intros HC. unfold process. run_M. rewrite HC.
  destruct (extract_intent_and_args _ _ _ _); reflexivity.
Qed.

(** One turn on a pending command either ends the pending cycle or leaves a
    command that differs from the old one in [params] and [needs] only, its
    needs being a sublist of the old ones. *)
Lemma process_pending_step r uid user_input C C' :
  last_incomplete_command r !! uid = Some C →
  last_incomplete_command (process uid user_input r).2 !! uid = Some C' →
  agent C' = agent C ∧ action C' = action C ∧ raw_input C' = raw_input C
  ∧ needs C' `sublist_of` needs C.
Proof.
  intros HC. rewrite (process_pending r uid user_input C HC).
  destruct (extract_intent_and_args _ _ _ _) as [P|].
  - set (P' := fill_from_memory _ _).
    destruct (decide (remaining_needs (needs C) (merged_params C P') = [])) as [He|Hne].
    + rewrite (handle_incomplete_command_done r uid C P' HC He), keeps_pending_route.
      simpl. by rewrite lookup_delete_eq.
    + rewrite (handle_incomplete_command_wait r uid C P' HC Hne). simpl.
      rewrite lookup_insert_eq. intros [= <-]. simpl.
      repeat split. apply remaining_needs_sublist.
  - rewrite keeps_pending_reprompt, HC. intros [= <-]. repeat split. reflexivity.
Qed.

(** Whatever relation every single turn establishes between the pending
    command before and after, it holds all along a trace when it is reflexive
    and transitive. *)
Lemma pending_trace_chain (R : command → command → Prop) uid :
  (∀ c, R c c) →
  (∀ c1 c2 c3, R c1 c2 → R c2 c3 → R c1 c3) →
  (∀ r user_input C C',
      last_incomplete_command r !! uid = Some C →
      last_incomplete_command (process uid user_input r).2 !! uid = Some C' →
      R C C') →
  ∀ inputs r C0,
    last_incomplete_command r !! uid = Some C0 →
    ∀ i C, (C0 :: pending_trace uid inputs r) !! i = Some C →
      R C0 C ∧ ∀ C', (C0 :: pending_trace uid inputs r) !! S i = Some C' → R C C'.
Proof.
  intros Hrefl Htrans Hstep. induction inputs as [|user_input inputs IH]; intros r C0 HC0 i C.
  - simpl. destruct i as [|i]; [|done]. intros [= <-]. split; [apply Hrefl|done].
  - simpl. rewrite HC0.
    destruct (last_incomplete_command (process uid user_input r).2 !! uid)
      as [C1|] eqn:HC1.
    + pose proof (Hstep r user_input C0 C1 HC0 HC1) as H01.
      destruct i as [|i]; simpl.
      * intros [= <-]. split; [apply Hrefl|]. by intros C' [= <-].
      * intros Hi. destruct (IH _ C1 HC1 i C Hi) as [H1 Hnext].
        split; [by eapply Htrans|exact Hnext].
    + destruct i as [|i]; [|done]. intros [= <-]. split; [apply Hrefl|done].
Qed.

(** C2.  Along any run of turns on a pending command, the needs of every
    stored state are a sublist, hence a subset, of the needs the command
    started with, and from one turn to the next the needs list never gets
    longer. *)
Theorem needs_shrink_monotonically (r : router) (uid : string) (C0 : command)
    (inputs : list string) :
  last_incomplete_command r !! uid = Some C0 →
  ∀ i C, (C0 :: pending_trace uid inputs r) !! i = Some C →
    needs C `sublist_of` needs C0
    ∧ (∀ k, k ∈ needs C → k ∈ needs C0)
    ∧ ∀ C', (C0 :: pending_trace uid inputs r) !! S i = Some C' →
        length (needs C') ≤ length (needs C).
Proof.
  intros HC0 i C Hi.
  destruct (pending_trace_chain (λ c c', needs c' `sublist_of` needs c) uid)
    with (inputs := inputs) (r := r) (C0 := C0) (i := i) (C := C) as [Hsub Hnext];
    try done.
  - intros c1 c2 c3 H12 H23. by etrans.
  - intros r0 user_input c c' Hc Hc'.
    by destruct (process_pending_step r0 uid user_input c c' Hc Hc') as (_ & _ & _ & ?).
  - split; [exact Hsub|]. split.
    + intros k Hk. by eapply sublist_subseteq.
    + intros C' HC'. apply sublist_length. by apply Hnext.
Qed.

(** One turn on a pending command either keeps it pending or dispatches it,
    under the agent, the action and the raw input it had. *)
Lemma process_pending_outcome r uid user_input C :
  last_incomplete_command r !! uid = Some C →
  (∃ C', last_incomplete_command (process uid user_input r).2 !! uid = Some C'
         ∧ agent C' = agent C ∧ action C' = action C)
  ∨ (∃ ps, process uid user_input r =
             route {| agent := agent C; action := action C; params := ps;
                      needs := needs C; raw_input := raw_input C |} uid
               (with_pending (delete uid) r)).
Proof.
  intros HC. rewrite (process_pending r uid user_input C HC).
  destruct (extract_intent_and_args _ _ _ _) as [P|].
  - set (P' := fill_from_memory _ _).
    destruct (decide (remaining_needs (needs C) (merged_params C P') = [])) as [He|Hne].
    + right. exists (merged_params C P').
      apply (handle_incomplete_command_done r uid C P' HC He).
    + left. rewrite (handle_incomplete_command_wait r uid C P' HC Hne). simpl.
      rewrite lookup_insert_eq. eexists. by split.
  - left. exists C. by rewrite keeps_pending_reprompt, HC.
Qed.

(** C3.  Every state of a pending command along a run of turns has the
    agent, the action and the raw input it was stored with: a turn changes
    its [params] and [needs] only.  And a turn that ends the pending cycle
    dispatches the command under that same agent and action. *)
Theorem pending_agent_action_immutable (r : router) (uid : string) (C0 : command)
    (inputs : list string) (user_input : string) :
  last_incomplete_command r !! uid = Some C0 →
  (∀ C, C ∈ pending_trace uid inputs r →
     C = {| agent := agent C0; action := action C0; params := params C;
            needs := needs C; raw_input := raw_input C0 |})
  ∧ ((∃ C', last_incomplete_command (process uid user_input r).2 !! uid = Some C'
            ∧ agent C' = agent C0 ∧ action C' = action C0)
     ∨ (∃ ps, process uid user_input r =
                route {| agent := agent C0; action := action C0; params := ps;
                         needs := needs C0; raw_input := raw_input C0 |} uid
                  (with_pending (delete uid) r))).
Proof.
  intros HC0. split; [|by apply process_pending_outcome].
  intros C HC.
  assert (C ∈ C0 :: pending_trace uid inputs r) as [i Hi]%list_elem_of_lookup
    by (by right).
  destruct (pending_trace_chain
              (λ c c', agent c' = agent c ∧ action c' = action c
                       ∧ raw_input c' = raw_input c) uid)
    with (inputs := inputs) (r := r) (C0 := C0) (i := i) (C := C)
    as [(Hag & Hac & Hraw) _]; try done.
  - intros c1 c2 c3 (? & ? & ?) (? & ? & ?). repeat split; congruence.
  - intros r0 input c c' Hc Hc'.
    by destruct (process_pending_step r0 uid input c c' Hc Hc') as (? & ? & ? & _).
  - destruct C; simpl in *. by rewrite Hag, Hac, Hraw.
Qed.

(** C4.  When the freshly parsed intent lists [content] among its needs and
    the user's long-term memory has a [code] entry, [process] sets the
    intent's [content] parameter to that entry and removes [content] (its
    first occurrence) from the intent's needs; only then does the merge with
    a stored pending command run, on the filled intent, so the merged
    parameters carry the value from memory.  Without a pending command the
    filled intent is dispatched or stored. *)
Theorem memory_fill_precedes_merge (r : router) (uid user_input : string)
    (P : command) (code : value) :
  extract_intent_and_args sv user_input (last_incomplete_command r !! uid)
    (MemoryManager.get_short_term_history (memory_manager r) uid) = Some P →
  "content" ∈ needs P →
  MemoryManager.get_from_long_term (memory_manager r) uid "code" = Some code →
  let filled :=
    {| agent := agent P; action := action P;
       params := <[ "content" := code ]> (params P);
       needs := list_remove_first "content" (needs P);
       raw_input := user_input |} in
  (∃ l1 l2, needs P = l1 ++ "content" :: l2 ∧ ("content" ∉ l1) ∧ needs filled = l1 ++ l2)
  ∧ params filled !! "content" = Some code
  ∧ match last_incomplete_command r !! uid with
    | Some C =>
        process uid user_input r = handle_incomplete_command uid filled r
        ∧ merged_params C filled !! "content" = Some code
    | None =>
        process uid user_input r =
          match needs filled with
          | [] => route filled uid r
          | _ => reprompt_for_missing_params cfg filled (with_pending (insert uid filled) r)
          end
    end.
Proof.
  intros HP Hneeds Hcode filled.
  split; [by apply list_remove_first_split|].
  split; [apply lookup_insert_eq|].
  assert (fill_from_memory (MemoryManager.get_all_long_term (memory_manager r) uid)
            {| agent := agent P; action := action P; params := params P;
               needs := needs P; raw_input := user_input |} = filled) as Hfill.
  { unfold fill_from_memory. unfold MemoryManager.get_from_long_term in Hcode.
    rewrite Hcode. simpl. by rewrite decide_True. }
  destruct (last_incomplete_command r !! uid) as [C|] eqn:HC.
  - split.
    + rewrite (process_pending r uid user_input C HC), HP. by rewrite Hfill.
    + rewrite merged_params_lookup. simpl. by rewrite lookup_insert_eq.
  - unfold process. run_M. rewrite HC, HP. run_M. rewrite Hfill.
    destruct (needs filled); reflexivity.
Qed.

(** C10, as the code has it.  The memory fill looks at the needs of the
    freshly parsed intent only.  When the pending command lacks [content]
    (listed in its needs, absent from its parameters) and the new intent
    neither lists [content] in its needs nor carries a [content] parameter,
    nothing is filled from memory, whatever the long-term memory holds, and
    after the turn the command is still pending with [content] among its
    needs. *)
Theorem no_fill_for_pending_needs (r : router) (uid user_input : string)
    (C P : command) :
  last_incomplete_command r !! uid = Some C →
  "content" ∈ needs C →
  params C !! "content" = None →
  extract_intent_and_args sv user_input (Some C)
    (MemoryManager.get_short_term_history (memory_manager r) uid) = Some P →
  "content" ∉ needs P →
  params P !! "content" = None →
  let parsed :=
    {| agent := agent P; action := action P; params := params P;
       needs := needs P; raw_input := user_input |} in
  fill_from_memory (MemoryManager.get_all_long_term (memory_manager r) uid) parsed = parsed
  ∧ ∃ C', last_incomplete_command (process uid user_input r).2 !! uid = Some C'
          ∧ "content" ∈ needs C' ∧ params C' !! "content" = None.
Proof.
  intros HC HneedsC HparamsC HP HneedsP HparamsP parsed.
  assert (fill_from_memory (MemoryManager.get_all_long_term (memory_manager r) uid) parsed
          = parsed) as Hfill.
  { unfold fill_from_memory. case_match; [|done]. by rewrite decide_False. }
  split; [exact Hfill|].
  rewrite (process_pending r uid user_input C HC), HP. fold parsed. rewrite Hfill.
  assert (merged_params C parsed !! "content" = None) as Hmerged.
  { rewrite merged_params_lookup. simpl. by rewrite HparamsP. }
  assert ("content" ∈ remaining_needs (needs C) (merged_params C parsed)) as Hrem.
  { by apply elem_of_remaining_needs. }
  rewrite (handle_incomplete_command_wait r uid C parsed HC).
  - simpl. rewrite lookup_insert_eq. eexists. split; [reflexivity|]. by split.
  - intros Hnil. rewrite Hnil in Hrem. by apply elem_of_nil in Hrem.
Qed.

End PendingCommand.

(** ** The dispatch engine *)

Section Dispatch.

Context (cfg : config) (sv : services) (mcp_servers : gmap string handler).

#[local] Abbreviation route := (route cfg sv mcp_servers).
#[local] Abbreviation finish_route := (finish_route cfg sv).

Ltac run_M :=
  repeat (progress (unfold mbind, M_bind, mret, M_ret, get_state, modify, or_raise, raise;
                    cbv beta iota zeta)).

(** Only parameters of the signature reach the operation. *)
Lemma filter_params_keys (op : operation) (ps : gmap string value) k :
  is_Some (filter_params op ps !! k) → k ∈ op_parameters op.
Proof.
  intros [x Hx]. unfold filter_params in Hx.
  by apply map_lookup_filter_Some in Hx as [_ Hk].
Qed.

Lemma filter_params_extra (op : operation) (ps : gmap string value) k v :
  k ∉ op_parameters op → filter_params op (<[k := v]> ps) = filter_params op ps.
Proof.
  intros Hk. unfold filter_params.
  apply map_filter_insert_not'; simpl; [done|by intros y _].
Qed.

(** The generic path of [_route], once the operation is resolved. *)
Lemma route_resolved r uid parsed h method_to_call :
  agent parsed ≠ flag_chat_agent_name cfg →
  mcp_servers !! agent parsed = Some h →
  h_operations h !! action parsed = Some method_to_call →
  route parsed uid r =
    let kwargs := filter_params method_to_call (params parsed) in
    let r' := log_call (Invoke (agent parsed) (action parsed) kwargs) r in
    match op_call method_to_call kwargs with
    | Raises e =>
        (format (tpl_execution_error cfg)
           (<[ "agent" := agent parsed ]>
              (<[ "action" := action parsed ]> {[ "error" := e ]})), r')
    | ReturnsDict result_obj =>
        finish_route uid (agent parsed) (action parsed) (params parsed)
          (raw_input parsed) result_obj r'
    | ReturnsOther repr =>
        finish_route uid (agent parsed) (action parsed) (params parsed)
          (raw_input parsed) {[ "result" := repr ]} r'
    end.
Proof.
  intros Hchat Hh Hop. unfold route.
  rewrite decide_False by done. rewrite Hh, Hop. run_M.
  destruct (op_call _ _); try reflexivity. by destruct (format _ _).
Qed.

(** C5, as the code has it.  When the operation resolved for a non-chat
    agent raises, dispatch invokes it once, catches the exception and returns
    the execution-error template formatted with the agent, the action and the
    error text, which the message shows wherever the template has those
    fields; the dispatch ends there, with the short-term transcript, the
    long-term memory and the pending commands as they were. *)
Theorem route_execution_error (r : router) (uid : string) (parsed : command)
    (h : handler) (method_to_call : operation) (e : string) :
  agent parsed ≠ flag_chat_agent_name cfg →
  mcp_servers !! agent parsed = Some h →
  h_operations h !! action parsed = Some method_to_call →
  op_call method_to_call (filter_params method_to_call (params parsed)) = Raises e →
  let kw : gmap string string :=
    <[ "agent" := agent parsed ]> (<[ "action" := action parsed ]> {[ "error" := e ]}) in
  route parsed uid r =
    (format (tpl_execution_error cfg) kw,
     log_call (Invoke (agent parsed) (action parsed)
                 (filter_params method_to_call (params parsed))) r)
  ∧ memory_manager (route parsed uid r).2 = memory_manager r
  ∧ last_incomplete_command (route parsed uid r).2 = last_incomplete_command r
  ∧ (∀ msg, (route parsed uid r).1 = Some msg →
       (Field "agent" ∈ tpl_execution_error cfg → mentions msg (agent parsed))
       ∧ (Field "action" ∈ tpl_execution_error cfg → mentions msg (action parsed))
       ∧ (Field "error" ∈ tpl_execution_error cfg → mentions msg e))
  ∧ ((∀ f, Field f ∈ tpl_execution_error cfg → f ∈ ["agent"; "action"; "error"]) →
     is_Some (route parsed uid r).1).
Proof.
  intros Hchat Hh Hop Hraise kw.
  rewrite (route_resolved r uid parsed h method_to_call Hchat Hh Hop).
  cbv zeta. rewrite Hraise. fold kw. simpl.
  split; [done|]. split; [done|]. split; [done|]. split.
  - intros msg Hmsg.
    repeat split; intros Hfield; eapply format_mentions; eauto; subst kw;
      by simplify_map_eq.
  - intros Hfields. apply format_is_Some. intros f Hf.
    specialize (Hfields f Hf). subst kw.
    repeat (apply elem_of_cons in Hfields as [->|Hfields]; [by simplify_map_eq|]).
    by apply elem_of_nil in Hfields.
Qed.

(** C6, as the code has it.  For an agent other than the chat agent:
    when the agent is not in the registry, dispatch returns the
    unsupported-agent template formatted with the agent; when the agent is
    there and the action is not the exact name of one of its callable
    operations, it returns the unsupported-action template formatted with the
    agent and the action.  In both cases the router state is returned as it
    was: no handler is invoked and no memory is changed. *)
Theorem route_unknown_target (r : router) (uid : string) (parsed : command) :
  agent parsed ≠ flag_chat_agent_name cfg →
  (mcp_servers !! agent parsed = None →
     route parsed uid r =
       (format (tpl_unsupported_agent cfg) {[ "agent" := agent parsed ]}, r)
     ∧ ∀ msg, (route parsed uid r).1 = Some msg →
         Field "agent" ∈ tpl_unsupported_agent cfg → mentions msg (agent parsed))
  ∧ (∀ h, mcp_servers !! agent parsed = Some h →
       h_operations h !! action parsed = None →
       route parsed uid r =
         (format (tpl_unsupported_action cfg)
            (<[ "agent" := agent parsed ]> {[ "action" := action parsed ]}), r)
       ∧ ∀ msg, (route parsed uid r).1 = Some msg →
           (Field "agent" ∈ tpl_unsupported_action cfg → mentions msg (agent parsed))
           ∧ (Field "action" ∈ tpl_unsupported_action cfg →
              mentions msg (action parsed))).
Proof.
  intros Hchat. split.
  - intros Hnone.
    assert (route parsed uid r =
              (format (tpl_unsupported_agent cfg) {[ "agent" := agent parsed ]}, r)) as ->.
    { unfold route. rewrite decide_False by done. rewrite Hnone.
      run_M. by destruct (format _ _). }
    split; [done|]. simpl. intros msg Hmsg Hfield.
    eapply format_mentions; eauto; by simplify_map_eq.
  - intros h Hh Hop.
    assert (route parsed uid r =
              (format (tpl_unsupported_action cfg)
                 (<[ "agent" := agent parsed ]> {[ "action" := action parsed ]}), r)) as ->.
    { unfold route. rewrite decide_False by done. rewrite Hh, Hop.
      run_M. by destruct (format _ _). }
    split; [done|]. simpl. intros msg Hmsg.
    split; intros Hfield; eapply format_mentions; eauto; by simplify_map_eq.
Qed.

(** The tail of dispatch reads the unfiltered parameters in two places: the
    inference step, and the [file_path] shown with a retrieved file. *)
Lemma finish_route_extra uid agent_name act ps raw result_obj k v r :
  infer_memory sv agent_name act (<[k := v]> ps) result_obj =
    infer_memory sv agent_name act ps result_obj →
  ¬ (act = "get_file_content" ∧ k = "file_path") →
  finish_route uid agent_name act (<[k := v]> ps) raw result_obj r =
    finish_route uid agent_name act ps raw result_obj r.
Proof.
  intros Hinfer Hfile. unfold finish_route.
  assert (infer_and_store_memory sv uid agent_name act (<[k := v]> ps) result_obj =
            infer_and_store_memory sv uid agent_name act ps result_obj) as ->.
  { unfold infer_and_store_memory. by rewrite Hinfer. }
  destruct (result_obj !! "content") as [code_content|]; [|reflexivity].
  destruct (decide (act = "get_file_content")) as [Hact|Hact]; [|reflexivity].
  assert (param_text (<[k := v]> ps) "file_path" "the file" =
            param_text ps "file_path" "the file") as ->; [|reflexivity].
  unfold param_text. rewrite lookup_insert_ne; [done|]. intros ->. by apply Hfile.
Qed.

(** C7, as the code has it.  For a command dispatched through the registry
    (an agent other than the chat agent), a parameter key outside the
    operation's signature never reaches the operation: the keyword arguments
    are the same with and without it, and all of them are in the signature.
    The reply and the state changes are the same too whenever the memory
    inference, which is shown the unfiltered parameters, answers the same,
    and the key is not the [file_path] of a [get_file_content] action, which
    the reply text reads from the unfiltered parameters. *)
Theorem route_filters_extra_param (r : router) (uid : string) (parsed : command)
    (h : handler) (method_to_call : operation) (k : string) (v : value) :
  agent parsed ≠ flag_chat_agent_name cfg →
  mcp_servers !! agent parsed = Some h →
  h_operations h !! action parsed = Some method_to_call →
  k ∉ op_parameters method_to_call →
  let extended :=
    {| agent := agent parsed; action := action parsed;
       params := <[k := v]> (params parsed);
       needs := needs parsed; raw_input := raw_input parsed |} in
  filter_params method_to_call (params extended) =
    filter_params method_to_call (params parsed)
  ∧ (∀ k', is_Some (filter_params method_to_call (params extended) !! k') →
           k' ∈ op_parameters method_to_call)
  ∧ call_log (route extended uid r).2 =
      call_log r ++ [Invoke (agent parsed) (action parsed)
                       (filter_params method_to_call (params parsed))]
  ∧ ((∀ result_obj,
        infer_memory sv (agent parsed) (action parsed) (<[k := v]> (params parsed))
          result_obj =
        infer_memory sv (agent parsed) (action parsed) (params parsed) result_obj) →
     ¬ (action parsed = "get_file_content" ∧ k = "file_path") →
     route extended uid r = route parsed uid r).
Proof.
  intros Hchat Hh Hop Hk extended.
  pose proof (filter_params_extra method_to_call (params parsed) k v Hk) as Hfilter.
  split; [exact Hfilter|]. split; [intros k'; apply filter_params_keys|].
  rewrite (route_resolved r uid extended h method_to_call Hchat Hh Hop).
  rewrite (route_resolved r uid parsed h method_to_call Hchat Hh Hop).
  cbv zeta. simpl. rewrite Hfilter. split.
  - destruct (op_call _ _); simpl; [reflexivity| |];
      rewrite finish_route_frame; auto using with_memory_keeps_log.
  - intros Hinfer Hfile.
    destruct (op_call _ _); [reflexivity| |]; by apply finish_route_extra.
Qed.

End Dispatch.

(** ** Concrete runs *)

(** The first turn of a slot fill: nothing pending, the intent lacks its
    project key, so it is stored and the prompt names the key with the
    underscore replaced. *)
Example first_turn_stores_pending :
  process sample_cfg
    (services_extracting
       {| agent := "jira"; action := "create_ticket";
          params := {[ "title" := VStr "Bug" ]}; needs := ["project_key"];
          raw_input := "" |})
    sample_registry "u1" "open a ticket called Bug" fresh_router
  = (Some "Please provide: project key",
     with_pending
       (insert "u1"
          {| agent := "jira"; action := "create_ticket";
             params := {[ "title" := VStr "Bug" ]}; needs := ["project_key"];
             raw_input := "open a ticket called Bug" |}) fresh_router).
Proof. vm_compute. reflexivity. Qed.

(** The memory fill completing a pending push: the operation is called with
    the code from long-term memory as its content, and the turn is recorded. *)
Example memory_fill_completes_push :
  let r' := (process sample_cfg (services_extracting intent_needs_content) sample_registry
               "u1" "on branch dev" router_awaiting_content).2 in
  call_log r' =
    [Invoke "git" "push_file"
       (<[ "branch" := VStr "dev" ]>
          (<[ "content" := VStr "print(1)" ]>
             (<[ "repo_name" := VStr "demo" ]> {[ "file_path" := VStr "a.py" ]})))]
  ∧ last_incomplete_command r' !! "u1" = None
  ∧ MemoryManager.get_short_term_history (memory_manager r') "u1" =
      [Entry "user" "push a.py to demo"; Entry "assistant" "File pushed."].
Proof. vm_compute. repeat split. Qed.

Lemma merge_turn_spec_witness :
  handle_incomplete_command sample_cfg quiet_services sample_registry "u1"
    intent_project_key router_awaiting_ticket
  = (Some "Please provide: description",
     with_pending (insert "u1" ticket_with_key) router_awaiting_ticket).
Proof.
  destruct (merge_turn_spec sample_cfg quiet_services sample_registry
              router_awaiting_ticket "u1" pending_ticket intent_project_key
              ltac:(reflexivity)) as (_ & _ & Hwait).
  destruct Hwait as [Heq _]; [by vm_compute|].
  rewrite Heq. vm_compute. reflexivity.
Defined.

Lemma needs_shrink_monotonically_witness :
  needs ticket_with_key `sublist_of` needs pending_ticket
  ∧ length (needs ticket_with_key) ≤ length (needs pending_ticket).
Proof.
  split.
  - by destruct (needs_shrink_monotonically sample_cfg
                   (services_extracting intent_project_key) sample_registry
                   router_awaiting_ticket "u1" pending_ticket ["ABC"]
                   ltac:(reflexivity) 1 ticket_with_key
                   ltac:(vm_compute; reflexivity)) as (Hsublist & _ & _).
  - destruct (needs_shrink_monotonically sample_cfg
                (services_extracting intent_project_key) sample_registry
                router_awaiting_ticket "u1" pending_ticket ["ABC"]
                ltac:(reflexivity) 0 pending_ticket
                ltac:(reflexivity)) as (_ & _ & Hnext).
    apply Hnext. vm_compute. reflexivity.
Defined.

Lemma pending_agent_action_immutable_witness :
  ticket_with_key =
    {| agent := agent pending_ticket; action := action pending_ticket;
       params := params ticket_with_key; needs := needs ticket_with_key;
       raw_input := raw_input pending_ticket |}.
Proof.
  apply (pending_agent_action_immutable sample_cfg
           (services_extracting intent_project_key) sample_registry
           router_awaiting_ticket "u1" pending_ticket ["ABC"] "ABC" ltac:(reflexivity)).
  assert (pending_trace sample_cfg (services_extracting intent_project_key)
            sample_registry "u1" ["ABC"] router_awaiting_ticket = [ticket_with_key])
    as -> by (vm_compute; reflexivity).
  apply list_elem_of_here.
Defined.

Lemma memory_fill_precedes_merge_witness :
  process sample_cfg (services_extracting intent_needs_content) sample_registry
    "u1" "on branch dev" router_awaiting_content
  = handle_incomplete_command sample_cfg (services_extracting intent_needs_content)
      sample_registry "u1"
      {| agent := "git"; action := "push_file";
         params := <[ "content" := VStr "print(1)" ]> {[ "branch" := VStr "dev" ]};
         needs := [];
         raw_input := "on branch dev" |} router_awaiting_content.
Proof.
  destruct (memory_fill_precedes_merge sample_cfg (services_extracting intent_needs_content)
              sample_registry router_awaiting_content "u1" "on branch dev"
              intent_needs_content (VStr "print(1)")
              ltac:(reflexivity) ltac:(apply list_elem_of_here) ltac:(reflexivity))
    as (_ & _ & Hprocess).
  destruct Hprocess as [Hprocess _]. exact Hprocess.
Defined.

Lemma no_fill_for_pending_needs_witness :
  ∃ C', last_incomplete_command
          (process sample_cfg (services_extracting intent_branch_only) sample_registry
             "u1" "on branch dev" router_awaiting_content).2 !! "u1" = Some C'
        ∧ "content" ∈ needs C' ∧ params C' !! "content" = None.
Proof.
  destruct (no_fill_for_pending_needs sample_cfg (services_extracting intent_branch_only)
              sample_registry router_awaiting_content "u1" "on branch dev"
              pending_push intent_branch_only
              ltac:(reflexivity) ltac:(apply list_elem_of_here) ltac:(reflexivity)
              ltac:(reflexivity) ltac:(apply not_elem_of_nil) ltac:(reflexivity))
    as [_ Hpending].
  exact Hpending.
Defined.

(** C10, the claim as stated fails: the pending push needs [content], the
    follow-up intent does not list [content] in its needs but carries the
    content the user typed; nothing is filled from memory, yet [content] does
    not remain needed: the command completes and is dispatched with the typed
    value. *)
Lemma typed_content_completes_pending :
  "content" ∈ needs pending_push
  ∧ ("content" ∉ needs intent_typed_content)
  ∧ MemoryManager.get_from_long_term (memory_manager router_awaiting_content) "u1" "code"
    = Some (VStr "print(1)")
  ∧ last_incomplete_command
      (process sample_cfg (services_extracting intent_typed_content) sample_registry
         "u1" "x = 2" router_awaiting_content).2 !! "u1" = None
  ∧ call_log
      (process sample_cfg (services_extracting intent_typed_content) sample_registry
         "u1" "x = 2" router_awaiting_content).2
    = [Invoke "git" "push_file"
         (<[ "content" := VStr "x = 2" ]>
            (<[ "repo_name" := VStr "demo" ]> {[ "file_path" := VStr "a.py" ]}))].
Proof.
  split; [apply list_elem_of_here|]. split; [apply not_elem_of_nil|].
  split; [reflexivity|]. split; vm_compute; reflexivity.
Qed.

Lemma route_execution_error_witness :
  route sample_cfg quiet_services sample_registry command_delete_repo "u1" fresh_router
  = (Some "git delete_repo failed: 404 Not Found",
     log_call (Invoke "git" "delete_repo" {[ "repo_name" := VStr "demo" ]}) fresh_router).
Proof.
  destruct (route_execution_error sample_cfg quiet_services sample_registry fresh_router
              "u1" command_delete_repo sample_git
              {| op_parameters := ["repo_name"]; op_call := λ _, Raises "404 Not Found" |}
              "404 Not Found"
              ltac:(by vm_compute) ltac:(reflexivity) ltac:(reflexivity) ltac:(reflexivity))
    as (Hroute & _).
  rewrite Hroute. vm_compute. reflexivity.
Defined.

(** C5, the claim as stated fails: the operation raises, the reply is the
    error message, and the user's transcript is still empty afterwards: the
    turn is not recorded. *)
Lemma failed_dispatch_not_recorded :
  (route sample_cfg quiet_services sample_registry command_delete_repo "u1" fresh_router).1
  = Some "git delete_repo failed: 404 Not Found"
  ∧ MemoryManager.get_short_term_history
      (memory_manager
         (route sample_cfg quiet_services sample_registry command_delete_repo "u1"
            fresh_router).2) "u1" = [].
Proof. split; vm_compute; reflexivity. Qed.

Lemma route_unknown_target_witness :
  route sample_cfg quiet_services sample_registry command_unknown_agent "u1" fresh_router
  = (Some "Unsupported agent: weather", fresh_router)
  ∧ route sample_cfg quiet_services sample_registry
      {| agent := "git"; action := "List_Repos"; params := ∅; needs := [];
         raw_input := "list my repos" |} "u1" fresh_router
    = (Some "Agent git cannot do List_Repos", fresh_router).
Proof.
  split.
  - destruct (route_unknown_target sample_cfg quiet_services sample_registry fresh_router
                "u1" command_unknown_agent ltac:(by vm_compute)) as [Hagent _].
    destruct (Hagent ltac:(reflexivity)) as [-> _]. vm_compute. reflexivity.
  - destruct (route_unknown_target sample_cfg quiet_services sample_registry fresh_router
                "u1" {| agent := "git"; action := "List_Repos"; params := ∅; needs := [];
                        raw_input := "list my repos" |} ltac:(by vm_compute))
      as [_ Haction].
    destruct (Haction sample_git ltac:(reflexivity) ltac:(reflexivity)) as [-> _].
    vm_compute. reflexivity.
Defined.

(** C6, the claim as stated fails: the chat agent is in the registry and
    [small_talk] is none of its operations, yet dispatch does not answer with
    an unsupported-action message: it calls the chat handler's [run] and
    replies with what that returns. *)
Lemma chat_unknown_action_invokes_handler :
  sample_registry !! agent command_small_talk = Some sample_chat
  ∧ h_operations sample_chat !! action command_small_talk = None
  ∧ route sample_cfg quiet_services sample_registry command_small_talk "u1" fresh_router
    = (Some "Hello!",
       log_call (InvokeRun "chat" "hi there" command_small_talk) fresh_router).
Proof. split; [reflexivity|]. split; [reflexivity|]. vm_compute. reflexivity. Qed.

Lemma route_filters_extra_param_witness :
  route sample_cfg quiet_services sample_registry
    (command_list_repos {[ "owner" := VStr "bob" ]}) "u1" fresh_router
  = route sample_cfg quiet_services sample_registry (command_list_repos ∅) "u1" fresh_router.
Proof.
  destruct (route_filters_extra_param sample_cfg quiet_services sample_registry
              fresh_router "u1" (command_list_repos ∅) sample_git
              {| op_parameters := [];
                 op_call := λ _, ReturnsDict {[ "result" := "You have no repositories." ]} |}
              "owner" (VStr "bob")
              ltac:(by vm_compute) ltac:(reflexivity) ltac:(reflexivity)
              ltac:(apply not_elem_of_nil)) as (_ & _ & _ & Hsame).
  apply Hsame; [reflexivity|]. by intros [? _].
Defined.

(** C7, the claim as stated fails, in two ways.  The memory inference is
    shown the unfiltered parameters: with an inference that proposes to store
    what it is shown, the extra key [owner], which [list_repos] does not
    take, ends up in long-term memory.  And the reply for [get_file_content]
    reads [file_path] from the unfiltered parameters: for an operation that
    takes [path], the extra key [file_path] changes the reply. *)
Lemma extra_param_changes_dispatch :
  MemoryManager.get_from_long_term
    (memory_manager
       (route sample_cfg services_storing_params sample_registry
          (command_list_repos {[ "owner" := VStr "bob" ]}) "u1" fresh_router).2)
    "u1" "owner" = Some (VStr "bob")
  ∧ MemoryManager.get_from_long_term
      (memory_manager
         (route sample_cfg services_storing_params sample_registry
            (command_list_repos ∅) "u1" fresh_router).2)
      "u1" "owner" = None
  ∧ (route sample_cfg quiet_services sample_registry
       (command_get_file (<[ "file_path" := VStr "notes.txt" ]> {[ "path" := VStr "n" ]}))
       "u1" fresh_router).1
    ≠ (route sample_cfg quiet_services sample_registry
         (command_get_file {[ "path" := VStr "n" ]}) "u1" fresh_router).1.
Proof.
  split; [vm_compute; reflexivity|]. split; [vm_compute; reflexivity|].
  vm_compute. discriminate.
Qed.

(** ** What a whole turn can do to the router

    Every state change of a turn for [uid] is one of six updates: a
    transcript append, a long-term merge or a remembered fact for [uid], a
    logged invocation, and the deletion or the storing of [uid]'s pending
    command.  A reflexive and transitive relation that each of them
    establishes therefore holds between the states before and after any
    dispatch and any turn. *)

Section Effects.

Context (R : router → router → Prop) `{!Reflexive R} `{!Transitive R}.

Lemma relates_ret {A} (a : A) : relates R (mret a).
Proof. intros r. simpl. reflexivity. Qed.

Lemma relates_raise {A} : relates R (@raise A).
Proof. intros r. simpl. reflexivity. Qed.

Lemma relates_or_raise {A} (o : option A) : relates R (or_raise o).
Proof. intros r. destruct o; simpl; reflexivity. Qed.

Lemma relates_get_state : relates R get_state.
Proof. intros r. simpl. reflexivity. Qed.

Lemma relates_modify (g : router → router) : (∀ r, R r (g r)) → relates R (modify g).
Proof. intros Hg r. apply Hg. Qed.

Lemma relates_bind {A B} (m : M A) (f : A → M B) :
  relates R m → (∀ a, relates R (f a)) → relates R (m ≫= f).
Proof.
  intros Hm Hf r. unfold mbind, M_bind. specialize (Hm r).
  destruct (m r) as [[a|] r']; simpl in *; [|done].
  etrans; [exact Hm|apply Hf].
Qed.

End Effects.

Section TurnEffects.

Context (cfg : config) (sv : services) (mcp_servers : gmap string handler).
Context (uid : string) (R : router → router → Prop) `{!Reflexive R} `{!Transitive R}.

Hypothesis R_short_term : ∀ r u a,
  R r (with_memory (MemoryManager.add_to_short_term uid u a) r).
Hypothesis R_long_term : ∀ r data,
  R r (with_memory (MemoryManager.add_to_long_term uid data) r).
Hypothesis R_fact : ∀ r fact m',
  MemoryManager.remember_fact uid fact (memory_manager r) = Some m' →
  R r (with_memory (λ _, m') r).
Hypothesis R_log : ∀ r i, R r (log_call i r).
Hypothesis R_delete : ∀ r, R r (with_pending (delete uid) r).
Hypothesis R_insert : ∀ r c, R r (with_pending (insert uid c) r).

Ltac rule lem := apply lem; try typeclasses eauto.

Ltac effects :=
  repeat first
    [ rule @relates_bind; [|intros ?]
    | by rule @relates_ret
    | by rule @relates_raise
    | by rule @relates_or_raise
    | by rule @relates_get_state
    | rule @relates_modify; by auto
    | case_decide
    | case_match ].

Lemma relates_reprompt c : relates R (reprompt_for_missing_params cfg c).
Proof. unfold reprompt_for_missing_params. effects. Qed.

Lemma relates_remember_this fact raw : relates R (remember_this cfg uid fact raw).
Proof.
  intros r. unfold remember_this, mbind, M_bind, get_state, or_raise, modify; simpl.
  destruct (MemoryManager.remember_fact uid fact (memory_manager r)) as [m'|] eqn:Hm';
    simpl; [|reflexivity].
  pose proof (R_fact r fact m' Hm') as H1.
  destruct (format _ _) as [result|]; simpl; [|exact H1].
  etrans; [exact H1|apply R_short_term].
Qed.

Lemma relates_query_memory query raw : relates R (query_memory cfg sv uid query raw).
Proof. unfold query_memory, handle_memory_query. effects. Qed.

Lemma relates_get_chat_history raw : relates R (get_chat_history cfg uid raw).
Proof. unfold get_chat_history. effects. Qed.

Lemma relates_infer agent_name act ps result_obj :
  relates R (infer_and_store_memory sv uid agent_name act ps result_obj).
Proof. unfold infer_and_store_memory. effects. Qed.

Lemma relates_finish_route agent_name act ps raw result_obj :
  relates R (finish_route cfg sv uid agent_name act ps raw result_obj).
Proof.
  unfold finish_route. rule @relates_bind; [apply relates_infer|].
  intros _. effects.
Qed.

Lemma relates_route parsed : relates R (route cfg sv mcp_servers parsed uid).
Proof.
  unfold route.
  repeat case_decide;
    auto using relates_remember_this, relates_query_memory, relates_get_chat_history;
    try (by rule @relates_ret).
  - effects.
  - repeat case_match; try (by rule @relates_or_raise);
      (rule @relates_bind; [by rule @relates_modify|intros _]);
      repeat case_match; auto using relates_finish_route; by rule @relates_or_raise.
Qed.

Lemma relates_handle_incomplete_command current_parsed :
  relates R (handle_incomplete_command cfg sv mcp_servers uid current_parsed).
Proof.
  unfold handle_incomplete_command.
  rule @relates_bind; [by rule @relates_get_state|]. intros r0.
  rule @relates_bind; [by rule @relates_or_raise|]. intros previous_ctx.
  destruct (remaining_needs _ _).
  - rule @relates_bind; [by rule @relates_modify|]. intros _. apply relates_route.
  - rule @relates_bind; [by rule @relates_modify|]. intros _. apply relates_reprompt.
Qed.

(** The rule for a whole turn. *)
Lemma relates_process user_input :
  relates R (process cfg sv mcp_servers uid user_input).
Proof.
  unfold process.
  rule @relates_bind; [by rule @relates_get_state|]. intros r0.
  repeat case_match;
    auto using relates_reprompt, relates_handle_incomplete_command, relates_route;
    try (by rule @relates_ret).
  rule @relates_bind; [by rule @relates_modify|]. intros _. apply relates_reprompt.
Qed.

End TurnEffects.

(** ** Invariants of whole conversations *)

Lemma remember_fact_frame uid fact m m' :
  MemoryManager.remember_fact uid fact m = Some m' →
  MemoryManager.short_term_memory m' = MemoryManager.short_term_memory m
  ∧ MemoryManager.stm_max_len m' = MemoryManager.stm_max_len m
  ∧ (∀ uid', uid ≠ uid' →
       MemoryManager.get_all_long_term m' uid' = MemoryManager.get_all_long_term m uid')
  ∧ (∀ k, is_Some (MemoryManager.get_from_long_term m uid k) →
          is_Some (MemoryManager.get_from_long_term m' uid k)).
Proof.
  unfold MemoryManager.remember_fact. intros Hm'.
  repeat case_match; simplify_eq; simpl; repeat split; try done.
  all: try (intros uid' Hne; unfold MemoryManager.get_all_long_term; simpl;
            by rewrite lookup_insert_ne).
  all: intros k Hk; unfold MemoryManager.get_from_long_term,
         MemoryManager.get_all_long_term in *; simpl; rewrite lookup_insert_eq; simpl;
       destruct (decide (k = "user_memos")) as [->|Hne];
       [rewrite lookup_insert_eq; by eexists | by rewrite lookup_insert_ne].
Qed.

(** X1.  A turn for one user never changes another user's transcript,
    long-term memory or pending command. *)
Theorem process_user_isolation (cfg : config) (sv : services)
    (mcp_servers : gmap string handler) (uid uid' user_input : string) (r : router) :
  uid ≠ uid' →
  let r' := (process cfg sv mcp_servers uid user_input r).2 in
  MemoryManager.get_short_term_history (memory_manager r') uid' =
    MemoryManager.get_short_term_history (memory_manager r) uid'
  ∧ MemoryManager.get_all_long_term (memory_manager r') uid' =
      MemoryManager.get_all_long_term (memory_manager r) uid'
  ∧ last_incomplete_command r' !! uid' = last_incomplete_command r !! uid'.
Proof.
  intros Hne.
  pose proof (@relates_process cfg sv mcp_servers uid
                (λ r r',
                   MemoryManager.get_short_term_history (memory_manager r') uid' =
                     MemoryManager.get_short_term_history (memory_manager r) uid'
                   ∧ MemoryManager.get_all_long_term (memory_manager r') uid' =
                       MemoryManager.get_all_long_term (memory_manager r) uid'
                   ∧ last_incomplete_command r' !! uid' =
                       last_incomplete_command r !! uid')) as Hturn.
  unfold relates in Hturn. intros r'. apply Hturn; clear Hturn r'.
  - by intros r0.
  - intros r1 r2 r3 (? & ? & ?) (? & ? & ?). repeat split; congruence.
  - intros r0 u a. simpl. by rewrite add_to_short_term_other.
  - intros r0 data. simpl. by rewrite add_to_long_term_other.
  - intros r0 fact m' Hm'. simpl.
    destruct (remember_fact_frame uid fact _ m' Hm') as (Hstm & _ & Hltm & _).
    unfold MemoryManager.get_short_term_history. rewrite Hstm, Hltm; done.
  - by intros r0 i.
  - intros r0. simpl. by rewrite lookup_delete_ne.
  - intros r0 c. simpl. by rewrite lookup_insert_ne.
Qed.

Lemma process_user_isolation_witness :
  last_incomplete_command
    (process sample_cfg (services_extracting intent_typed_content) sample_registry
       "u1" "x = 2" (with_pending (insert "u2" pending_ticket) router_awaiting_content)).2
    !! "u2" = Some pending_ticket.
Proof.
  destruct (process_user_isolation sample_cfg (services_extracting intent_typed_content)
              sample_registry "u1" "u2" "x = 2"
              (with_pending (insert "u2" pending_ticket) router_awaiting_content)
              ltac:(done)) as (_ & _ & Hpending).
  rewrite Hpending. reflexivity.
Defined.

(** X2.  The transcript capacity is an invariant of whole conversations:
    from a router whose transcripts respect the capacity, any sequence of
    turns, for any users, leaves the capacity as it was and every transcript
    within it. *)
Theorem run_turns_transcripts_bounded (cfg : config) (sv : services)
    (mcp_servers : gmap string handler) (turns : list (string * string)) (r : router) :
  MemoryManager.stm_bounded (memory_manager r) →
  let r' := run_turns cfg sv mcp_servers turns r in
  MemoryManager.stm_max_len (memory_manager r') = MemoryManager.stm_max_len (memory_manager r)
  ∧ MemoryManager.stm_bounded (memory_manager r')
  ∧ ∀ uid, length (MemoryManager.get_short_term_history (memory_manager r') uid)
           ≤ MemoryManager.stm_max_len (memory_manager r).
Proof.
  revert r. induction turns as [|[uid user_input] turns IH]; intros r Hr; simpl.
  - split; [done|]. split; [done|]. intros uid. by apply history_bounded.
  - assert (MemoryManager.stm_max_len
              (memory_manager (process cfg sv mcp_servers uid user_input r).2) =
              MemoryManager.stm_max_len (memory_manager r)
            ∧ MemoryManager.stm_bounded
                (memory_manager (process cfg sv mcp_servers uid user_input r).2))
      as [Hlen Hbounded].
    { pose proof (@relates_process cfg sv mcp_servers uid
                    (λ r r', MemoryManager.stm_bounded (memory_manager r) →
                             MemoryManager.stm_max_len (memory_manager r') =
                               MemoryManager.stm_max_len (memory_manager r)
                             ∧ MemoryManager.stm_bounded (memory_manager r'))) as Hturn.
      unfold relates in Hturn. apply Hturn; [..|exact Hr]; clear Hturn.
      - by intros r0.
      - intros r1 r2 r3 H12 H23 H1. destruct (H12 H1) as [E12 B2].
        destruct (H23 B2) as [E23 B3]. split; [congruence|done].
      - intros r0 u a H0. split; [done|]. by apply add_to_short_term_bounded.
      - intros r0 data H0. by split.
      - intros r0 fact m' Hm' H0. simpl.
        destruct (remember_fact_frame uid fact _ m' Hm') as (_ & Hmax & _).
        split; [done|]. by eapply remember_fact_bounded.
      - by intros r0 i H0.
      - by intros r0 H0.
      - by intros r0 c H0. }
    destruct (IH _ Hbounded) as (Hlen' & Hbounded' & Hall).
    simpl in *. rewrite Hlen in *. done.
Qed.

Lemma run_turns_transcripts_bounded_witness :
  length (MemoryManager.get_short_term_history
            (memory_manager
               (run_turns sample_cfg (services_extracting (command_list_repos ∅))
                  sample_registry
                  [("u1", "list my repos"); ("u2", "list my repos");
                   ("u1", "list my repos")] fresh_router)) "u1") ≤ 20.
Proof.
  destruct (run_turns_transcripts_bounded sample_cfg
              (services_extracting (command_list_repos ∅)) sample_registry
              [("u1", "list my repos"); ("u2", "list my repos"); ("u1", "list my repos")]
              fresh_router (init_bounded _)) as (_ & _ & Hall).
  apply Hall.
Defined.

Lemma add_to_long_term_keeps_keys m uid data u k :
  is_Some (MemoryManager.get_from_long_term m u k) →
  is_Some (MemoryManager.get_from_long_term (MemoryManager.add_to_long_term uid data m) u k).
Proof.
  unfold MemoryManager.get_from_long_term. destruct (decide (uid = u)) as [->|Hne].
  - rewrite add_to_long_term_lookup. by destruct (data !! k).
  - by rewrite add_to_long_term_other.
Qed.

(** X3.  Long-term memory never loses a key: whatever a user's long-term
    memory holds under some key before a conversation, it still holds
    something under that key after any sequence of turns, for any users. *)
Theorem run_turns_long_term_keys_kept (cfg : config) (sv : services)
    (mcp_servers : gmap string handler) (turns : list (string * string)) (r : router)
    (u k : string) :
  is_Some (MemoryManager.get_from_long_term (memory_manager r) u k) →
  is_Some (MemoryManager.get_from_long_term
             (memory_manager (run_turns cfg sv mcp_servers turns r)) u k).
Proof.
  revert r. induction turns as [|[uid user_input] turns IH]; intros r Hr; simpl; [done|].
  apply IH.
  pose proof (@relates_process cfg sv mcp_servers uid
                (λ r r', is_Some (MemoryManager.get_from_long_term (memory_manager r) u k) →
                         is_Some (MemoryManager.get_from_long_term (memory_manager r') u k)))
    as Hturn.
  unfold relates in Hturn. apply Hturn; [..|exact Hr]; clear Hturn.
  - by intros r0.
  - intros r1 r2 r3 H12 H23 H1. auto.
  - by intros r0 user_text a H0.
  - intros r0 data H0. by apply add_to_long_term_keeps_keys.
  - intros r0 fact m' Hm' H0. simpl.
    destruct (remember_fact_frame uid fact _ m' Hm') as (_ & _ & Hother & Hsame).
    destruct (decide (uid = u)) as [->|Hne]; [by apply Hsame|].
    unfold MemoryManager.get_from_long_term in *. by rewrite Hother.
  - by intros r0 i H0.
  - by intros r0 H0.
  - by intros r0 c H0.
Qed.

Lemma run_turns_long_term_keys_kept_witness :
  is_Some (MemoryManager.get_from_long_term
             (memory_manager
                (run_turns sample_cfg (services_extracting intent_typed_content)
                   sample_registry [("u1", "x = 2"); ("u2", "x = 2")]
                   router_awaiting_content)) "u1" "code").
Proof.
  apply (run_turns_long_term_keys_kept sample_cfg (services_extracting intent_typed_content)
           sample_registry [("u1", "x = 2"); ("u2", "x = 2")] router_awaiting_content
           "u1" "code").
  vm_compute. by eexists.
Defined.

(** ** Handler invocations *)

Section Invocations.

Context (cfg : config) (sv : services) (mcp_servers : gmap string handler).

Lemma at_most_once_of_preserves {A} (m : M A) :
  preserves call_log m → invokes_at_most_once m.
Proof. intros Hm r. left. apply Hm. Qed.

Lemma at_most_once_bind_l {A B} (m : M A) (f : A → M B) :
  preserves call_log m → (∀ a, invokes_at_most_once (f a)) →
  invokes_at_most_once (m ≫= f).
Proof.
  intros Hm Hf r. unfold mbind, M_bind. specialize (Hm r).
  destruct (m r) as [[a|] r']; simpl in *; [|by left].
  rewrite <- Hm. apply Hf.
Qed.

Lemma at_most_once_bind_r {A B} (m : M A) (f : A → M B) :
  invokes_at_most_once m → (∀ a, preserves call_log (f a)) →
  invokes_at_most_once (m ≫= f).
Proof.
  intros Hm Hf r. unfold mbind, M_bind. specialize (Hm r).
  destruct (m r) as [[a|] r']; simpl in *; [|done].
  rewrite (Hf a r'). exact Hm.
Qed.

Lemma at_most_once_log_call i : invokes_at_most_once (modify (log_call i)).
Proof. intros r. right. by exists i. Qed.

Lemma with_pending_keeps_log f : preserves call_log (modify (with_pending f)).
Proof. intros r. reflexivity. Qed.

Lemma keeps_log_reprompt c : preserves call_log (reprompt_for_missing_params cfg c).
Proof. unfold reprompt_for_missing_params. frame. Qed.

Lemma keeps_log_remember_this uid fact raw :
  preserves call_log (remember_this cfg uid fact raw).
Proof. unfold remember_this. frame. Qed.

Lemma keeps_log_query_memory uid query raw :
  preserves call_log (query_memory cfg sv uid query raw).
Proof. unfold query_memory, handle_memory_query. frame. Qed.

Lemma keeps_log_get_chat_history uid raw :
  preserves call_log (get_chat_history cfg uid raw).
Proof. unfold get_chat_history. frame. Qed.

Lemma route_at_most_once parsed uid :
  invokes_at_most_once (route cfg sv mcp_servers parsed uid).
Proof.
  unfold route.
  repeat case_decide;
    auto using at_most_once_of_preserves, keeps_log_remember_this, keeps_log_query_memory,
      keeps_log_get_chat_history, preserves_ret.
  - apply at_most_once_bind_l; [apply preserves_or_raise|]. intros chat_agent.
    apply at_most_once_bind_l; [apply preserves_or_raise|]. intros run.
    apply at_most_once_bind_r; [apply at_most_once_log_call|]. intros _.
    repeat case_match; auto using preserves_ret, preserves_raise.
  - repeat case_match;
      try (apply at_most_once_of_preserves; by apply preserves_or_raise);
      (apply at_most_once_bind_r; [apply at_most_once_log_call|]; intros _);
      repeat case_match;
      auto using finish_route_frame, with_memory_keeps_log, preserves_or_raise.
Qed.


End Invocations.

(** ** Turns outside a pending cycle, and failed extractions *)

Section Turns.

Context (cfg : config) (sv : services) (mcp_servers : gmap string handler).

#[local] Abbreviation route := (route cfg sv mcp_servers).
#[local] Abbreviation process := (process cfg sv mcp_servers).

Ltac run_M :=
  repeat (progress (unfold mbind, M_bind, mret, M_ret, get_state, modify, or_raise, raise;
                    cbv beta iota zeta)).

(** X5.  When the extractor raises, the turn changes nothing: with a pending
    command the reply is the prompt for its needs once more, without one it
    is the generic unclear-command response; the router state is returned as
    it was, so the pending command is not lost. *)
Theorem process_extraction_failure (uid user_input : string) (r : router) :
  extract_intent_and_args sv user_input (last_incomplete_command r !! uid)
    (MemoryManager.get_short_term_history (memory_manager r) uid) = None →
  process uid user_input r =
    (match last_incomplete_command r !! uid with
     | Some pending =>
         format (tpl_missing_params cfg)
           {[ "needs" := join ", " (replace_underscores <$> needs pending) ]}
     | None => Some (llm_response sv "unclear_command")
     end, r).
Proof.
  intros Hfail. unfold process. run_M. rewrite Hfail.
  destruct (last_incomplete_command r !! uid) as [pending|]; [|reflexivity].
  unfold reprompt_for_missing_params. run_M. by destruct (format _ _).
Qed.

(** X6.  A turn for a user with nothing pending.  The intent, with the
    user's text as raw input and after the memory fill, is dispatched at once
    when it needs nothing, and no pending command appears for anybody;
    otherwise it is stored as the user's pending command and the reply is the
    prompt for its needs, with the memory and the invocation log untouched. *)
Theorem process_idle (uid user_input : string) (r : router) (P : command) :
  last_incomplete_command r !! uid = None →
  extract_intent_and_args sv user_input None
    (MemoryManager.get_short_term_history (memory_manager r) uid) = Some P →
  let parsed :=
    fill_from_memory (MemoryManager.get_all_long_term (memory_manager r) uid)
      {| agent := agent P; action := action P; params := params P;
         needs := needs P; raw_input := user_input |} in
  (needs parsed = [] →
     process uid user_input r = route parsed uid r
     ∧ last_incomplete_command (process uid user_input r).2 = last_incomplete_command r)
  ∧ (needs parsed ≠ [] →
       process uid user_input r =
         (format (tpl_missing_params cfg)
            {[ "needs" := join ", " (replace_underscores <$> needs parsed) ]},
          with_pending (insert uid parsed) r)).
Proof.
  intros Hidle HP parsed.
  assert (process uid user_input r =
            match needs parsed with
            | [] => route parsed uid r
            | _ => reprompt_for_missing_params cfg parsed (with_pending (insert uid parsed) r)
            end) as Hprocess.
  { unfold process. run_M. rewrite Hidle, HP. run_M. fold parsed.
    by destruct (needs parsed). }
  split; intros Hneeds.
  - rewrite Hprocess, Hneeds. split; [done|]. apply keeps_pending_route.
  - rewrite Hprocess. destruct (needs parsed) as [|k rest] eqn:Hk; [done|].
    unfold reprompt_for_missing_params. run_M. rewrite Hk. by destruct (format _ _).
Qed.

End Turns.

Lemma process_extraction_failure_witness :
  process sample_cfg quiet_services sample_registry "u1" "???" router_awaiting_ticket
  = (Some "Please provide: project key, description", router_awaiting_ticket).
Proof.
  rewrite (process_extraction_failure sample_cfg quiet_services sample_registry "u1" "???"
             router_awaiting_ticket ltac:(reflexivity)).
  vm_compute. reflexivity.
Defined.

Lemma process_idle_witness :
  process sample_cfg (services_extracting intent_needs_content) sample_registry
    "u2" "push on branch dev" fresh_router
  = (Some "Please provide: content",
     with_pending
       (insert "u2"
          {| agent := "git"; action := "push_file";
             params := params intent_needs_content; needs := ["content"];
             raw_input := "push on branch dev" |}) fresh_router).
Proof.
  destruct (process_idle sample_cfg (services_extracting intent_needs_content)
              sample_registry "u2" "push on branch dev" fresh_router intent_needs_content
              ltac:(reflexivity) ltac:(reflexivity)) as [_ Hstore].
  rewrite Hstore by (by vm_compute). vm_compute. reflexivity.
Defined.

(** ** Successful dispatch *)

Section Success.

Context (cfg : config) (sv : services) (mcp_servers : gmap string handler).

#[local] Abbreviation route := (route cfg sv mcp_servers).

Ltac run_M :=
  repeat (progress (unfold mbind, M_bind, mret, M_ret, get_state, modify, or_raise, raise;
                    cbv beta iota zeta)).

(** The inference step returns normally, and either leaves the router as it
    was or merges a non-empty update into the user's long-term memory. *)
Lemma infer_and_store_memory_run uid agent_name act ps result_obj r :
  ∃ r1, infer_and_store_memory sv uid agent_name act ps result_obj r = (Some (), r1)
        ∧ (r1 = r
           ∨ ∃ data, data ≠ ∅
                     ∧ r1 = with_memory (MemoryManager.add_to_long_term uid data) r).
Proof.
  unfold infer_and_store_memory.
  repeat case_match; run_M; eexists; (split; [reflexivity|]); eauto.
Qed.

Lemma finish_route_run uid agent_name act ps raw result_obj r :
  ∃ reply r1,
    infer_and_store_memory sv uid agent_name act ps result_obj r = (Some (), r1)
    ∧ finish_route cfg sv uid agent_name act ps raw result_obj r =
        (Some reply,
         with_memory
           (MemoryManager.add_to_short_term uid raw (raw_result_text cfg act ps result_obj))
           r1).
Proof.
  destruct (infer_and_store_memory_run uid agent_name act ps result_obj r)
    as (r1 & Hinfer & _).
  unfold finish_route. run_M. rewrite Hinfer. run_M.
  eexists _, r1. split; [reflexivity|]. reflexivity.
Qed.

(** X7.  A dispatch through the registry whose operation returns records the
    turn: the user's transcript gets the command's raw input and then the
    result text (the [result] entry of the returned dictionary, the
    action-complete message when there is none, the [str] of a returned
    value that is no dictionary), subject to the capacity; one invocation is
    logged and the reply is produced. *)
Theorem route_success_records_turn (r : router) (uid : string) (parsed : command)
    (h : handler) (method_to_call : operation) (returned : call_result) :
  agent parsed ≠ flag_chat_agent_name cfg →
  mcp_servers !! agent parsed = Some h →
  h_operations h !! action parsed = Some method_to_call →
  op_call method_to_call (filter_params method_to_call (params parsed)) = returned →
  (∀ e, returned ≠ Raises e) →
  MemoryManager.stm_bounded (memory_manager r) →
  let r' := (route parsed uid r).2 in
  let text :=
    raw_result_text cfg (action parsed) (params parsed) (normalized_result returned) in
  is_Some (route parsed uid r).1
  ∧ MemoryManager.get_short_term_history (memory_manager r') uid =
      lastn (MemoryManager.stm_max_len (memory_manager r))
        (MemoryManager.get_short_term_history (memory_manager r) uid
           ++ [Entry "user" (raw_input parsed); Entry "assistant" text])
  ∧ call_log r' =
      call_log r ++ [Invoke (agent parsed) (action parsed)
                       (filter_params method_to_call (params parsed))].
Proof.
  intros Hchat Hh Hop Hret Hok Hbounded.
  rewrite (route_resolved cfg sv mcp_servers r uid parsed h method_to_call Hchat Hh Hop).
  cbv zeta. rewrite Hret.
  set (r0 := log_call _ r).
  assert (∃ reply r1,
            infer_and_store_memory sv uid (agent parsed) (action parsed) (params parsed)
              (normalized_result returned) r0 = (Some (), r1)
            ∧ match returned with
              | Raises e => (format (tpl_execution_error cfg)
                               (<[ "agent" := agent parsed ]>
                                  (<[ "action" := action parsed ]> {[ "error" := e ]})), r0)
              | ReturnsDict result_obj =>
                  finish_route cfg sv uid (agent parsed) (action parsed) (params parsed)
                    (raw_input parsed) result_obj r0
              | ReturnsOther repr =>
                  finish_route cfg sv uid (agent parsed) (action parsed) (params parsed)
                    (raw_input parsed) {[ "result" := repr ]} r0
              end =
              (Some reply,
               with_memory
                 (MemoryManager.add_to_short_term uid (raw_input parsed)
                    (raw_result_text cfg (action parsed) (params parsed)
                       (normalized_result returned))) r1))
    as (reply & r1 & Hinfer & ->).
  { destruct returned as [e|d|repr]; [by destruct (Hok e)| |]; apply finish_route_run. }
  simpl. split; [by eexists|].
  destruct (infer_and_store_memory_run uid (agent parsed) (action parsed) (params parsed)
              (normalized_result returned) r0) as (r1' & Hinfer' & Hr1).
  rewrite Hinfer in Hinfer'. simplify_eq.
  assert (MemoryManager.short_term_memory (memory_manager r1') =
            MemoryManager.short_term_memory (memory_manager r)
          ∧ MemoryManager.stm_max_len (memory_manager r1') =
              MemoryManager.stm_max_len (memory_manager r)
          ∧ call_log r1' = call_log r0) as (Hstm & Hmax & Hlog).
  { destruct Hr1 as [->|(data & _ & ->)]; done. }
  split; [|by rewrite Hlog].
  rewrite add_to_short_term_history.
  - unfold MemoryManager.get_short_term_history. by rewrite Hstm, Hmax.
  - intros u d. rewrite Hstm, Hmax. apply Hbounded.
Qed.

(** X8.  Generated code is always stored: after a [developer] /
    [generate_code] dispatch whose operation returns a dictionary with a
    [result] entry, the user's long-term [code] is that entry, whatever the
    delegated inference would have answered; and any later intent that lists
    [content] among its needs gets that code as its [content] parameter. *)
Theorem generated_code_is_remembered (r : router) (uid : string) (parsed : command)
    (h : handler) (method_to_call : operation) (d : gmap string string) (code : string) :
  agent parsed = "developer" →
  action parsed = "generate_code" →
  flag_chat_agent_name cfg ≠ "developer" →
  mcp_servers !! "developer" = Some h →
  h_operations h !! "generate_code" = Some method_to_call →
  op_call method_to_call (filter_params method_to_call (params parsed)) = ReturnsDict d →
  d !! "result" = Some code →
  let r' := (route parsed uid r).2 in
  MemoryManager.get_from_long_term (memory_manager r') uid "code" = Some (VStr code)
  ∧ ∀ later, "content" ∈ needs later →
      params (fill_from_memory (MemoryManager.get_all_long_term (memory_manager r') uid)
                later) !! "content" = Some (VStr code).
Proof.
  intros Hagent Haction Hchat Hh Hop Hret Hcode r'.
  assert (MemoryManager.get_from_long_term (memory_manager r') uid "code"
          = Some (VStr code)) as Hstored.
  { subst r'.
    rewrite (route_resolved cfg sv mcp_servers r uid parsed h method_to_call);
      [|congruence..].
    cbv zeta. rewrite Hret.
    set (r0 := log_call _ r).
    destruct (finish_route_run uid (agent parsed) (action parsed) (params parsed)
                (raw_input parsed) d r0) as (reply & r1 & Hinfer & ->).
    unfold infer_and_store_memory in Hinfer.
    rewrite Hcode, decide_True in Hinfer by done.
    rewrite decide_False in Hinfer.
    2:{ intros Hempty. apply (f_equal (λ m : gmap string value, m !! "code")) in Hempty.
        by rewrite lookup_singleton_eq, lookup_empty in Hempty. }
    unfold modify in Hinfer. simplify_eq.
    change (MemoryManager.get_all_long_term
              (MemoryManager.add_to_long_term uid {[ "code" := VStr code ]}
                 (memory_manager r0)) uid !! "code" = Some (VStr code)).
    rewrite add_to_long_term_lookup. by rewrite lookup_singleton_eq. }
  split; [exact Hstored|].
  intros later Hneeds. unfold fill_from_memory.
  unfold MemoryManager.get_from_long_term in Hstored. rewrite Hstored.
  rewrite decide_True by done. simpl. apply lookup_insert_eq.
Qed.

(** X9.  The inference step fails open.  When the fixed rule for generated
    code does not apply and the delegated inference raises or answers with
    the empty object, a successful dispatch changes no long-term memory: only
    the transcript and the invocation log move. *)
Theorem route_inference_fail_open (r : router) (uid : string) (parsed : command)
    (h : handler) (method_to_call : operation) (returned : call_result) :
  agent parsed ≠ flag_chat_agent_name cfg →
  mcp_servers !! agent parsed = Some h →
  h_operations h !! action parsed = Some method_to_call →
  op_call method_to_call (filter_params method_to_call (params parsed)) = returned →
  ¬ (agent parsed = "developer" ∧ action parsed = "generate_code") →
  (infer_memory sv (agent parsed) (action parsed) (params parsed)
     (normalized_result returned) = None
   ∨ infer_memory sv (agent parsed) (action parsed) (params parsed)
       (normalized_result returned) = Some ∅) →
  MemoryManager.long_term_memory (memory_manager (route parsed uid r).2) =
    MemoryManager.long_term_memory (memory_manager r)
  ∧ last_incomplete_command (route parsed uid r).2 = last_incomplete_command r.
Proof.
  intros Hchat Hh Hop Hret Hrule Hinfer.
  split; [|apply keeps_pending_route].
  rewrite (route_resolved cfg sv mcp_servers r uid parsed h method_to_call Hchat Hh Hop).
  cbv zeta. rewrite Hret.
  set (r0 := log_call _ r).
  assert (infer_and_store_memory sv uid (agent parsed) (action parsed) (params parsed)
            (normalized_result returned) r0 = (Some (), r0)) as Hstep.
  { unfold infer_and_store_memory.
    assert (match normalized_result returned !! "result" with
            | Some code =>
                if decide (agent parsed = "developer" ∧ action parsed = "generate_code")
                then Some ({[ "code" := VStr code ]} : gmap string value)
                else infer_memory sv (agent parsed) (action parsed) (params parsed)
                       (normalized_result returned)
            | None => infer_memory sv (agent parsed) (action parsed) (params parsed)
                        (normalized_result returned)
            end = infer_memory sv (agent parsed) (action parsed) (params parsed)
                    (normalized_result returned)) as ->.
    { case_match; [by rewrite decide_False|done]. }
    destruct Hinfer as [->| ->]; [done|]. by rewrite decide_True. }
  destruct returned as [e|d|repr]; [done| |].
  - destruct (finish_route_run uid (agent parsed) (action parsed) (params parsed)
                (raw_input parsed) d r0) as (reply & r1 & Hinfer' & ->).
    simpl in Hstep. rewrite Hstep in Hinfer'. by simplify_eq.
  - destruct (finish_route_run uid (agent parsed) (action parsed) (params parsed)
                (raw_input parsed) {[ "result" := repr ]} r0)
      as (reply & r1 & Hinfer' & ->).
    simpl in Hstep. rewrite Hstep in Hinfer'. by simplify_eq.
Qed.

End Success.

Lemma route_success_records_turn_witness :
  MemoryManager.get_short_term_history
    (memory_manager
       (route sample_cfg quiet_services sample_registry (command_list_repos ∅) "u1"
          fresh_router).2) "u1"
  = [Entry "user" "list my repos"; Entry "assistant" "You have no repositories."].
Proof.
  destruct (route_success_records_turn sample_cfg quiet_services sample_registry
              fresh_router "u1" (command_list_repos ∅) sample_git sample_list_repos
              (ReturnsDict {[ "result" := "You have no repositories." ]})
              ltac:(by vm_compute) ltac:(reflexivity) ltac:(reflexivity) ltac:(reflexivity)
              ltac:(done) (init_bounded _)) as (_ & Hhistory & _).
  rewrite Hhistory. vm_compute. reflexivity.
Defined.

Lemma generated_code_is_remembered_witness :
  MemoryManager.get_from_long_term
    (memory_manager
       (route sample_cfg quiet_services registry_with_developer command_generate_code "u1"
          fresh_router).2) "u1" "code" = Some (VStr "print(1)").
Proof.
  destruct (generated_code_is_remembered sample_cfg quiet_services registry_with_developer
              fresh_router "u1" command_generate_code sample_developer sample_generate_code
              (<[ "result" := "print(1)" ]> {[ "code" := "print(1)" ]}) "print(1)"
              ltac:(reflexivity) ltac:(reflexivity) ltac:(by vm_compute) ltac:(reflexivity)
              ltac:(reflexivity) ltac:(reflexivity) ltac:(reflexivity)) as [Hstored _].
  exact Hstored.
Defined.

Lemma route_inference_fail_open_witness :
  MemoryManager.long_term_memory
    (memory_manager
       (route sample_cfg quiet_services sample_registry (command_list_repos ∅) "u1"
          router_awaiting_content).2)
  = MemoryManager.long_term_memory (memory_manager router_awaiting_content).
Proof.
  destruct (route_inference_fail_open sample_cfg quiet_services sample_registry
              router_awaiting_content "u1" (command_list_repos ∅) sample_git
              sample_list_repos (ReturnsDict {[ "result" := "You have no repositories." ]})
              ltac:(by vm_compute) ltac:(reflexivity) ltac:(reflexivity) ltac:(reflexivity)
              ltac:(by intros [? _]) ltac:(by left)) as [Hltm _].
  exact Hltm.
Defined.

(** What [remember_fact] does when the memos are absent or a list. *)
Lemma remember_fact_appends m uid fact (earlier : option (list string)) :
  MemoryManager.get_from_long_term m uid "user_memos" = VList <$> earlier →
  ∃ m', MemoryManager.remember_fact uid fact m = Some m'
        ∧ MemoryManager.get_from_long_term m' uid "user_memos" =
            Some (VList (default [] earlier ++ [fact]))
        ∧ MemoryManager.short_term_memory m' = MemoryManager.short_term_memory m
        ∧ MemoryManager.stm_max_len m' = MemoryManager.stm_max_len m.
Proof.
  intros Hmemos. unfold MemoryManager.get_from_long_term in *.
  unfold MemoryManager.remember_fact. rewrite Hmemos.
  destruct earlier as [memos|]; simpl; eexists; (split; [reflexivity|]).
  all: set (user := MemoryManager.get_all_long_term m uid).
  all: unfold MemoryManager.get_all_long_term; simpl.
  all: rewrite lookup_insert_eq; simpl.
  all: by rewrite lookup_insert_eq.
Qed.

(** ** The memory actions of the chat agent *)

Section ChatActions.

Context (cfg : config) (sv : services) (mcp_servers : gmap string handler).

#[local] Abbreviation route := (route cfg sv mcp_servers).

Ltac run_M :=
  repeat (progress (unfold mbind, M_bind, mret, M_ret, get_state, modify, or_raise, raise;
                    cbv beta iota zeta)).


(** X11.  A long-term merge that stores text under [user_memos] disables
    the remember action for that user: from then on it ends in an uncaught
    exception, before any fact, transcript entry or log entry is written. *)
Theorem route_remember_after_text_memos (r : router) (uid : string) (parsed : command)
    (data : gmap string value) (text : string) :
  agent parsed = flag_chat_agent_name cfg →
  action parsed = chat_action_remember cfg →
  data !! "user_memos" = Some (VStr text) →
  let r1 := with_memory (MemoryManager.add_to_long_term uid data) r in
  route parsed uid r1 = (None, r1).
Proof.
  intros Hagent Haction Hdata r1.
  unfold route. rewrite decide_True by done. rewrite decide_True by done.
  unfold remember_this. run_M.
  assert (MemoryManager.remember_fact uid
            (param_text (params parsed) "fact" (raw_input parsed)) (memory_manager r1)
          = None) as ->; [|reflexivity].
  unfold MemoryManager.remember_fact. subst r1. cbn [memory_manager with_memory].
  by rewrite add_to_long_term_lookup, Hdata.
Qed.

(** X12.  The history action shows the transcript as it was before the
    request and then records the request itself.  With an empty transcript
    the reply is the no-history message; otherwise it is the history header
    formatted with one line per entry, the role capitalised.  No handler is
    invoked and the long-term memory is untouched. *)
Theorem route_get_chat_history (r : router) (uid : string) (parsed : command)
    (result : string) :
  agent parsed = flag_chat_agent_name cfg →
  action parsed ≠ chat_action_remember cfg →
  action parsed ≠ chat_action_query_memory cfg →
  action parsed = chat_action_get_history cfg →
  let history := MemoryManager.get_short_term_history (memory_manager r) uid in
  match history with
  | [] => Some (msg_no_history cfg)
  | _ =>
      format (msg_history_header cfg)
        {[ "formatted_history" :=
             join nl ((λ msg, "- " +:+ capitalize (role msg) +:+ ": " +:+ content msg)
                        <$> history) ]}
  end = Some result →
  route parsed uid r =
    (Some result,
     with_memory (MemoryManager.add_to_short_term uid (raw_input parsed) result) r).
Proof.
  intros Hagent Hremember Hquery Haction history Hresult.
  unfold route. rewrite decide_True by done.
  rewrite decide_False by done. rewrite decide_False by done.
  rewrite decide_True by done.
  unfold get_chat_history. run_M. fold history.
  destruct history as [|e rest]; simplify_eq; run_M; [reflexivity|].
  by rewrite Hresult.
Qed.


End ChatActions.


Lemma route_remember_after_text_memos_witness :
  (route sample_cfg quiet_services sample_registry (command_remember ∅) "u1"
     (with_memory
        (MemoryManager.add_to_long_term "u1" {[ "user_memos" := VStr "likes tea" ]})
        fresh_router)).1 = None.
Proof.
  rewrite (route_remember_after_text_memos sample_cfg quiet_services sample_registry
             fresh_router "u1" (command_remember ∅)
             {[ "user_memos" := VStr "likes tea" ]} "likes tea"
             ltac:(reflexivity) ltac:(reflexivity) ltac:(reflexivity)).
  reflexivity.
Defined.

Lemma route_get_chat_history_witness :
  route sample_cfg quiet_services sample_registry command_get_history "u1" fresh_router
  = (Some "No history yet.",
     with_memory (MemoryManager.add_to_short_term "u1" "show our chat" "No history yet.")
       fresh_router).
Proof.
  apply (route_get_chat_history sample_cfg quiet_services sample_registry fresh_router "u1"
           command_get_history "No history yet."
           ltac:(reflexivity) ltac:(by vm_compute) ltac:(by vm_compute) ltac:(reflexivity)
           ltac:(reflexivity)).
Defined.


(** ** More invariants of a pending cycle *)

Section PendingInvariants.

Context (cfg : config) (sv : services) (mcp_servers : gmap string handler).

#[local] Abbreviation process := (process cfg sv mcp_servers).
#[local] Abbreviation pending_trace := (pending_trace cfg sv mcp_servers).

(** The pending command that a turn leaves is the old one, untouched, when
    the extractor failed, and the merge of the old one with the filled intent
    otherwise. *)
Lemma process_pending_shape r uid user_input C C' :
  last_incomplete_command r !! uid = Some C →
  last_incomplete_command (process uid user_input r).2 !! uid = Some C' →
  match extract_intent_and_args sv user_input (Some C)
          (MemoryManager.get_short_term_history (memory_manager r) uid) with
  | None => C' = C
  | Some _ =>
      ∃ P', C' = {| agent := agent C; action := action C;
                    params := merged_params C P';
                    needs := remaining_needs (needs C) (merged_params C P');
                    raw_input := raw_input C |}
            ∧ needs C' ≠ []
  end.
Proof.
  intros HC. rewrite (process_pending cfg sv mcp_servers r uid user_input C HC).
  destruct (extract_intent_and_args _ _ _ _) as [P|].
  - set (P' := fill_from_memory _ _).
    destruct (decide (remaining_needs (needs C) (merged_params C P') = [])) as [He|Hne].
    + rewrite (handle_incomplete_command_done cfg sv mcp_servers r uid C P' HC He).
      rewrite keeps_pending_route. simpl. by rewrite lookup_delete_eq.
    + rewrite (handle_incomplete_command_wait cfg sv mcp_servers r uid C P' HC Hne).
      simpl. rewrite lookup_insert_eq. intros [= <-]. by exists P'.
  - rewrite keeps_pending_reprompt, HC. by intros [= <-].
Qed.

(** X14.  Parameters accumulate: along a pending cycle every parameter key
    that the command has at some turn, it still has at every later turn; in
    particular no key it was stored with is ever lost. *)
Theorem pending_params_accumulate (r : router) (uid : string) (C0 : command)
    (inputs : list string) (i : nat) (C : command) :
  last_incomplete_command r !! uid = Some C0 →
  (C0 :: pending_trace uid inputs r) !! i = Some C →
  (∀ k, is_Some (params C0 !! k) → is_Some (params C !! k))
  ∧ ∀ C', (C0 :: pending_trace uid inputs r) !! S i = Some C' →
          ∀ k, is_Some (params C !! k) → is_Some (params C' !! k).
Proof.
  intros HC0 Hi.
  apply (pending_trace_chain cfg sv mcp_servers
           (λ c c', ∀ k, is_Some (params c !! k) → is_Some (params c' !! k)) uid)
    with (inputs := inputs) (r := r); try done.
  - intros c1 c2 c3 H12 H23 k Hk. auto.
  - intros r0 user_input c c' Hc Hc' k Hk.
    pose proof (process_pending_shape r0 uid user_input c c' Hc Hc') as Hshape.
    destruct (extract_intent_and_args _ _ _ _); [|by subst].
    destruct Hshape as (P' & -> & _). simpl.
    rewrite merged_params_lookup. by destruct (params P' !! k).
Qed.

(** X15.  The needs of a merged pending command are recomputed, never
    trusted: after any turn on which the extractor answered and the command
    is still pending, its needs list is not empty and lists no parameter the
    command has, whatever the stored needs and parameters were before. *)
Theorem pending_needs_recomputed (r : router) (uid user_input : string)
    (C C' P : command) :
  last_incomplete_command r !! uid = Some C →
  extract_intent_and_args sv user_input (Some C)
    (MemoryManager.get_short_term_history (memory_manager r) uid) = Some P →
  last_incomplete_command (process uid user_input r).2 !! uid = Some C' →
  needs C' ≠ [] ∧ ∀ k, k ∈ needs C' → params C' !! k = None.
Proof.
  intros HC HP HC'.
  pose proof (process_pending_shape r uid user_input C C' HC HC') as Hshape.
  rewrite HP in Hshape. destruct Hshape as (P' & -> & Hne). split; [exact Hne|].
  simpl. intros k Hk. by apply elem_of_remaining_needs in Hk as [? _].
Qed.

(** X16.  A needs list without duplicates stays without duplicates all along
    the pending cycle. *)
Theorem pending_needs_no_duplicates (r : router) (uid : string) (C0 : command)
    (inputs : list string) (C : command) :
  last_incomplete_command r !! uid = Some C0 →
  NoDup (needs C0) →
  C ∈ pending_trace uid inputs r →
  NoDup (needs C).
Proof.
  intros HC0 Hnodup HC.
  assert (C ∈ C0 :: pending_trace uid inputs r) as [i Hi]%list_elem_of_lookup
    by (by right).
  destruct (pending_trace_chain cfg sv mcp_servers
              (λ c c', needs c' `sublist_of` needs c) uid)
    with (inputs := inputs) (r := r) (C0 := C0) (i := i) (C := C) as [Hsub _];
    try done.
  - intros c1 c2 c3 H12 H23. by etrans.
  - intros r0 user_input c c' Hc Hc'.
    by destruct (process_pending_step cfg sv mcp_servers r0 uid user_input c c' Hc Hc')
      as (_ & _ & _ & ?).
  - by eapply sublist_NoDup.
Qed.

End PendingInvariants.

Lemma pending_params_accumulate_witness :
  is_Some (params ticket_with_key !! "title").
Proof.
  destruct (pending_params_accumulate sample_cfg (services_extracting intent_project_key)
              sample_registry router_awaiting_ticket "u1" pending_ticket ["ABC"] 1
              ticket_with_key ltac:(reflexivity) ltac:(vm_compute; reflexivity))
    as [Hkept _].
  apply Hkept. vm_compute. by eexists.
Defined.

Lemma pending_needs_recomputed_witness :
  needs ticket_with_key ≠ [] ∧ params ticket_with_key !! "description" = None.
Proof.
  destruct (pending_needs_recomputed sample_cfg (services_extracting intent_project_key)
              sample_registry router_awaiting_ticket "u1" "ABC" pending_ticket
              ticket_with_key intent_project_key
              ltac:(reflexivity) ltac:(reflexivity) ltac:(vm_compute; reflexivity))
    as [Hne Hlacks].
  split; [exact Hne|]. apply Hlacks. apply list_elem_of_here.
Defined.

Lemma pending_needs_no_duplicates_witness : NoDup (needs ticket_with_key).
Proof.
  apply (pending_needs_no_duplicates sample_cfg (services_extracting intent_project_key)
           sample_registry router_awaiting_ticket "u1" pending_ticket ["ABC"]
           ticket_with_key ltac:(reflexivity)).
  - apply (bool_decide_unpack _). by vm_compute.
  - assert (pending_trace sample_cfg (services_extracting intent_project_key)
              sample_registry "u1" ["ABC"] router_awaiting_ticket = [ticket_with_key])
      as -> by (vm_compute; reflexivity).
    apply list_elem_of_here.
Defined.

(** ** The prompt for missing parameters *)

Lemma mentions_refl (s : string) : mentions s s.
Proof. exists "", "". by rewrite string_app_nil_r. Qed.

Lemma mentions_append_r (s sub post : string) : mentions s sub → mentions (s +:+ post) sub.
Proof.
  intros (p & q & ->). exists p, (q +:+ post). by rewrite !string_app_assoc.
Qed.

Lemma mentions_trans (s a b : string) : mentions s a → mentions a b → mentions s b.
Proof.
  intros (p & q & ->) Hab. apply mentions_prepend, mentions_append_r, Hab.
Qed.

(** A joined list shows each of its elements. *)
Lemma mentions_join (sep x : string) (l : list string) : x ∈ l → mentions (join sep l) x.
Proof.
  induction l as [|y l IH]; intros Hin; [by apply elem_of_nil in Hin|].
  apply elem_of_cons in Hin. destruct l as [|z l].
  - destruct Hin as [->|Hin]; [apply mentions_refl|by apply elem_of_nil in Hin].
  - change (join sep (y :: z :: l)) with (y +:+ sep +:+ join sep (z :: l)).
    destruct Hin as [->|Hin].
    + apply mentions_append_r, mentions_refl.
    + apply mentions_prepend, mentions_prepend. by apply IH.
Qed.

Lemma replace_underscores_length (s : string) :
  String.length (replace_underscores s) = String.length s.
Proof. induction s as [|c s IH]; simpl; by rewrite ?IH. Qed.

Lemma replace_underscores_clean (s : string) : ¬ mentions (replace_underscores s) "_".
Proof.
  induction s as [|c s IH]; intros (pre & post & Heq).
  - by destruct pre.
  - simpl in Heq. destruct pre as [|p pre].
    + injection Heq as Hc _. destruct (Ascii.eqb_spec c "_") as [->|Hne]; [done|].
      by apply Hne.
    + injection Heq as _ Hrest. apply IH. by exists pre, post.
Qed.

(** X17.  The prompt for missing parameters names every one of them: when
    the configured prompt has the [needs] field, the reply shows each need of
    the command, with its underscores replaced by spaces (the shown name has
    the length of the need and no underscore left); producing the prompt
    changes nothing in the router. *)
Theorem reprompt_names_every_need (cfg : config) (c : command) (r : router)
    (msg k : string) :
  (reprompt_for_missing_params cfg c r).1 = Some msg →
  Field "needs" ∈ tpl_missing_params cfg →
  k ∈ needs c →
  mentions msg (replace_underscores k)
  ∧ String.length (replace_underscores k) = String.length k
  ∧ ¬ mentions (replace_underscores k) "_"
  ∧ (reprompt_for_missing_params cfg c r).2 = r.
Proof.
  intros Hmsg Hfield Hk.
  assert (reprompt_for_missing_params cfg c r =
            (format (tpl_missing_params cfg)
               {[ "needs" := join ", " (replace_underscores <$> needs c) ]}, r)) as Hrun.
  { unfold reprompt_for_missing_params, or_raise. by destruct (format _ _). }
  rewrite Hrun in *. simpl in *.
  split; [|split; [apply replace_underscores_length|
                   split; [apply replace_underscores_clean|done]]].
  eapply mentions_trans.
  - eapply format_mentions; [exact Hmsg|exact Hfield|apply lookup_singleton_eq].
  - apply mentions_join. by apply list_elem_of_fmap_2.
Qed.

Lemma reprompt_names_every_need_witness :
  mentions "Please provide: project key, description" "project key".
Proof.
  destruct (reprompt_names_every_need sample_cfg pending_ticket fresh_router
              "Please provide: project key, description" "project_key"
              ltac:(vm_compute; reflexivity) ltac:(apply list_elem_of_further, list_elem_of_here)
              ltac:(apply list_elem_of_here)) as [Hshown _].
  exact Hshown.
Defined.

(** ** More on the memory store *)

(** X18.  Long-term merges compose: merging one update and then another is
    merging the first updated by the second, so later values win key by key
    and keys of the first update that the second lacks are kept; merging the
    same update twice is merging it once. *)
Theorem add_to_long_term_compose (m : MemoryManager.t) (uid : string)
    (d1 d2 : gmap string value) :
  MemoryManager.add_to_long_term uid d2 (MemoryManager.add_to_long_term uid d1 m) =
    MemoryManager.add_to_long_term uid (dict_update d1 d2) m
  ∧ MemoryManager.add_to_long_term uid d1 (MemoryManager.add_to_long_term uid d1 m) =
      MemoryManager.add_to_long_term uid d1 m.
Proof.
  assert (∀ a b, MemoryManager.add_to_long_term uid b (MemoryManager.add_to_long_term uid a m)
                 = MemoryManager.add_to_long_term uid (dict_update a b) m) as Hcompose.
  { intros a b. unfold MemoryManager.add_to_long_term. simpl. f_equal.
    unfold MemoryManager.get_all_long_term at 1. simpl.
    rewrite lookup_insert_eq, insert_insert_eq. simpl.
    unfold dict_update. by rewrite (assoc_L (∪)). }
  split; [apply Hcompose|].
  rewrite Hcompose. unfold dict_update. by rewrite (idemp (∪)).
Qed.

(** X19.  Remembered facts pile up in order: from a user whose memos are
    absent or a list, remembering a series of facts never fails and leaves
    the earlier memos followed by the new facts, in the order given. *)
Theorem remember_facts_in_order (m : MemoryManager.t) (uid : string)
    (earlier : option (list string)) (facts : list string) :
  MemoryManager.get_from_long_term m uid "user_memos" = VList <$> earlier →
  ∃ m',
    foldl (λ state fact, state ≫= MemoryManager.remember_fact uid fact) (Some m) facts
      = Some m'
    ∧ MemoryManager.get_from_long_term m' uid "user_memos" =
        match facts with
        | [] => VList <$> earlier
        | _ => Some (VList (default [] earlier ++ facts))
        end.
Proof.
  revert m earlier. induction facts as [|fact facts IH]; intros m earlier Hmemos.
  - exists m. by split.
  - destruct (remember_fact_appends m uid fact earlier Hmemos) as (m1 & Hm1 & Hafter & _).
    destruct (IH m1 (Some (default [] earlier ++ [fact])) Hafter) as (m' & Hfold & Hm').
    exists m'. split.
    + simpl. by rewrite Hm1.
    + rewrite Hm'. simpl. destruct facts; simpl.
      * done.
      * by rewrite <- app_assoc.
Qed.

Lemma remember_facts_in_order_witness :
  ∃ m',
    foldl (λ state fact, state ≫= MemoryManager.remember_fact "u1" fact)
      (Some (MemoryManager.init 20)) ["likes tea"; "owns a cat"] = Some m'
    ∧ MemoryManager.get_from_long_term m' "u1" "user_memos" =
        Some (VList ["likes tea"; "owns a cat"]).
Proof.
  apply (remember_facts_in_order (MemoryManager.init 20) "u1" None
           ["likes tea"; "owns a cat"] ltac:(reflexivity)).
Defined.

Lemma lastn_last {A} n (l : list A) : 0 < n → last (lastn n l) = last l.
Proof.
  intros Hn. unfold lastn. rewrite !last_lookup, lookup_drop, length_drop.
  destruct (decide (length l = 0)) as [Hnil|Hne].
  - destruct l; [done|simpl in Hnil; lia].
  - f_equal. lia.
Qed.

(** X20.  Recording an interaction makes the transcript two entries longer,
    up to the capacity; with any capacity above zero its last entry is then
    the assistant's response, and with capacity zero it stays empty. *)
Theorem add_to_short_term_length (m : MemoryManager.t) (uid u a : string) :
  MemoryManager.stm_bounded m →
  let history := MemoryManager.get_short_term_history m uid in
  let history' :=
    MemoryManager.get_short_term_history (MemoryManager.add_to_short_term uid u a m) uid in
  length history' = (length history + 2) `min` MemoryManager.stm_max_len m
  ∧ (0 < MemoryManager.stm_max_len m → last history' = Some (Entry "assistant" a))
  ∧ (MemoryManager.stm_max_len m = 0 → history' = []).
Proof.
  intros Hm history history'. subst history'.
  rewrite add_to_short_term_history by done. fold history.
  split; [by rewrite lastn_length, length_app|]. split.
  - intros Hpos. rewrite lastn_last by done.
    rewrite last_app_cons. reflexivity.
  - intros Hzero. apply nil_length_inv. rewrite lastn_length, Hzero. lia.
Qed.

Lemma add_to_short_term_length_witness :
  MemoryManager.get_short_term_history
    (MemoryManager.add_to_short_term "u1" "hi" "hello" (MemoryManager.init 0)) "u1" = [].
Proof.
  destruct (add_to_short_term_length (MemoryManager.init 0) "u1" "hi" "hello"
              (init_bounded 0)) as (_ & _ & Hempty).
  by apply Hempty.
Defined.

(** ** Strings: stripping and fences *)

Lemma string_app_cons (c : ascii) (a b : string) : String c a +:+ b = String c (a +:+ b).
Proof. reflexivity. Qed.

Lemma string_length_app (a b : string) :
  String.length (a +:+ b) = String.length a + String.length b.
Proof.
  induction a as [|c a IH]; [reflexivity|]. rewrite string_app_cons. simpl. by rewrite IH.
Qed.

Lemma lstrip_length (s : string) : String.length (lstrip s) ≤ String.length s.
Proof. induction s as [|c s IH]; simpl; [lia|]. destruct (is_space c); simpl; lia. Qed.

(** What is left of a left strip does not begin with white space. *)
Lemma lstrip_head (s : string) :
  match lstrip s with
  | String c _ => is_space c = false
  | EmptyString => True
  end.
Proof.
  induction s as [|c s IH]; simpl; [done|].
  destruct (is_space c) eqn:Hc; [exact IH|exact Hc].
Qed.

Lemma lstrip_fixed (c : ascii) (s : string) :
  lstrip (String c s) = String c s ↔ is_space c = false.
Proof.
  simpl. split.
  - intros Heq. destruct (is_space c) eqn:Hc; [|done].
    pose proof (lstrip_length s) as Hlen. rewrite Heq in Hlen. simpl in Hlen. lia.
  - by intros ->.
Qed.

Lemma rstrip_keeps_head (c : ascii) (s : string) :
  is_space c = false → rstrip (String c s) = String c (rstrip s).
Proof. intros Hc. simpl. rewrite Hc. by destruct (rstrip s). Qed.

Lemma rstrip_idemp (s : string) : rstrip (rstrip s) = rstrip s.
Proof.
  induction s as [|c s IH]; [reflexivity|]. simpl.
  destruct (rstrip s) as [|d rest] eqn:Hrest.
  - destruct (is_space c) eqn:Hc; [reflexivity|]. simpl. by rewrite Hc.
  - change (rstrip (String c (String d rest))) with
      (match rstrip (String d rest) with
       | EmptyString => if is_space c then EmptyString else String c EmptyString
       | rest' => String c rest'
       end).
    by rewrite IH.
Qed.

(** [strip] is idempotent: a stripped text has nothing left to strip. *)
Lemma strip_idemp (s : string) : strip (strip s) = strip s.
Proof.
  unfold strip. pose proof (lstrip_head s) as Hhead.
  destruct (lstrip s) as [|c t]; [reflexivity|].
  rewrite (rstrip_keeps_head c t Hhead).
  rewrite (proj2 (lstrip_fixed c (rstrip t)) Hhead).
  rewrite (rstrip_keeps_head c (rstrip t) Hhead). by rewrite rstrip_idemp.
Qed.

Lemma rstrip_app_nl (s : string) : rstrip (s +:+ nl) = rstrip s.
Proof.
  induction s as [|c s IH]; [reflexivity|].
  rewrite string_app_cons. simpl. by rewrite IH.
Qed.

Lemma rstrip_app_fixed (p s : string) :
  rstrip s = s → s ≠ "" → rstrip (p +:+ s) = p +:+ s.
Proof.
  intros Hs Hne. induction p as [|c p IH]; [exact Hs|].
  rewrite string_app_cons. simpl. rewrite IH.
  destruct (p +:+ s) eqn:Hps; [|reflexivity].
  destruct p; [by destruct s|done].
Qed.

(** Stripping a text put between two newlines gives the text back, when the
    text itself has no white space at either end. *)
Lemma strip_between_newlines (s : string) :
  lstrip s = s → rstrip s = s → strip (nl +:+ s +:+ nl) = s.
Proof.
  intros Hl Hr. unfold strip.
  change (lstrip (nl +:+ s +:+ nl)) with (lstrip (s +:+ nl)).
  destruct s as [|c s]; [reflexivity|].
  apply lstrip_fixed in Hl. rewrite string_app_cons.
  rewrite (proj2 (lstrip_fixed c (s +:+ nl)) Hl).
  rewrite <- string_app_cons. by rewrite rstrip_app_nl.
Qed.

Lemma startswith_app (p s : string) : startswith (p +:+ s) p = true.
Proof.
  induction p as [|c p IH]; [reflexivity|].
  rewrite string_app_cons. simpl. by rewrite Ascii.eqb_refl, IH.
Qed.

Lemma string_drop_app (p s : string) : string_drop (String.length p) (p +:+ s) = s.
Proof.
  induction p as [|c p IH]; [by destruct s|]. rewrite string_app_cons. simpl. exact IH.
Qed.

Lemma string_take_app (s t : string) : string_take (String.length s) (s +:+ t) = s.
Proof.
  induction s as [|c s IH]; [by destruct t|]. rewrite string_app_cons. simpl. by rewrite IH.
Qed.

Lemma endswith_app (s suffix : string) : endswith (s +:+ suffix) suffix = true.
Proof.
  induction s as [|c s IH].
  - change ("" +:+ suffix) with suffix. destruct suffix; simpl; [done|].
    by rewrite Ascii.eqb_refl, String.eqb_refl.
  - rewrite string_app_cons. simpl. rewrite IH. apply orb_true_r.
Qed.

Lemma string_drop_end_app (s suffix : string) :
  string_drop_end (String.length suffix) (s +:+ suffix) = s.
Proof.
  unfold string_drop_end. rewrite string_length_app.
  replace (String.length s + String.length suffix - String.length suffix)
    with (String.length s) by lia.
  apply string_take_app.
Qed.

Lemma fence_app (s : string) :
  fence +:+ s = String "`"%char (String "`"%char (String "`"%char s)).
Proof. reflexivity. Qed.

Lemma startswith_cons (c d : ascii) (p s : string) :
  startswith (String d s) (String c p) = Ascii.eqb c d && startswith s p.
Proof. reflexivity. Qed.

Lemma startswith_app_both (p s q : string) :
  startswith (p +:+ s) (p +:+ q) = startswith s q.
Proof.
  induction p as [|c p IH]; [reflexivity|].
  rewrite !string_app_cons. simpl. by rewrite Ascii.eqb_refl, IH.
Qed.

Lemma lstrip_app_fixed (s t : string) : lstrip s = s → s ≠ "" → lstrip (s +:+ t) = s +:+ t.
Proof.
  intros Hs Hne. destruct s as [|c s]; [done|].
  rewrite string_app_cons. apply lstrip_fixed. by apply lstrip_fixed in Hs.
Qed.

(** What the fence-cleaning functions reach when they meet a closing fence. *)
Lemma endswith_fence_app (s : string) :
  endswith (s +:+ fence) fence = true
  ∧ string_drop_end 3 (s +:+ fence) = s.
Proof. split; [apply endswith_app|apply (string_drop_end_app s fence)]. Qed.







(** ** The reply of a successful dispatch *)

Lemma finish_route_reply_stripped cfg sv uid agent_name act ps raw result_obj r reply :
  (finish_route cfg sv uid agent_name act ps raw result_obj r).1 = Some reply →
  strip reply = reply.
Proof.
  destruct (infer_and_store_memory_run sv uid agent_name act ps result_obj r)
    as (r1 & Hinfer & _).
  unfold finish_route, mbind, M_bind, modify, mret, M_ret. rewrite Hinfer. simpl.
  intros [= <-]. apply strip_idemp.
Qed.

(** X24.  The reply of a registry dispatch whose operation returns has no
    white space at either end, whatever the beautifier and the follow-up
    generator produced: it is its own [strip]. *)
Theorem route_reply_stripped (cfg : config) (sv : services)
    (mcp_servers : gmap string handler) (r : router) (uid : string) (parsed : command)
    (h : handler) (method_to_call : operation) (reply : string) :
  agent parsed ≠ flag_chat_agent_name cfg →
  mcp_servers !! agent parsed = Some h →
  h_operations h !! action parsed = Some method_to_call →
  (∀ e, op_call method_to_call (filter_params method_to_call (params parsed)) ≠ Raises e) →
  (route cfg sv mcp_servers parsed uid r).1 = Some reply →
  strip reply = reply.
Proof.
  intros Hchat Hh Hop Hok.
  rewrite (route_resolved cfg sv mcp_servers r uid parsed h method_to_call Hchat Hh Hop).
  cbv zeta. destruct (op_call _ _) as [e|d|repr]; [by destruct (Hok e)| |];
    apply finish_route_reply_stripped.
Qed.

Lemma route_reply_stripped_witness :
  strip "You have no repositories." = "You have no repositories.".
Proof.
  apply (route_reply_stripped sample_cfg quiet_services sample_registry fresh_router "u1"
           (command_list_repos ∅) sample_git sample_list_repos
           "You have no repositories."
           ltac:(by vm_compute) ltac:(reflexivity) ltac:(reflexivity) ltac:(done)).
  vm_compute. reflexivity.
Defined.

(** ** Signature inspection and the router *)

Lemma elem_of_missing_parameters (sig : list parameter) (ps : gmap string value) k :
  k ∈ missing_parameters sig ps ↔
  ps !! k = None ∧ ∃ p, p ∈ sig ∧ p_name p = k ∧ p_has_default p = false.
Proof.
  unfold missing_parameters. rewrite list_elem_of_fmap. split.
  - intros (p & -> & Hp). apply list_elem_of_filter in Hp as [[Hdefault Hnone] Hin].
    split; [done|]. by exists p.
  - intros (Hnone & p & Hin & <- & Hdefault). exists p. split; [done|].
    by apply list_elem_of_filter.
Qed.

Lemma missing_parameters_refilter (sig : list parameter) (ps ps' : gmap string value) :
  (∀ k, ps' !! k = None → ps !! k = None) →
  missing_parameters sig ps' = remaining_needs (missing_parameters sig ps) ps'.
Proof.
  intros Hgrows. unfold missing_parameters, remaining_needs.
  induction sig as [|p sig IH]; [reflexivity|].
  rewrite !filter_cons. destruct (decide (p_has_default p = false ∧ ps' !! p_name p = None))
    as [[Hd Hnone]|Hno].
  - rewrite decide_True by (split; [done|by apply Hgrows]).
    rewrite !fmap_cons, filter_cons, decide_True by done. by rewrite IH.
  - destruct (decide (p_has_default p = false ∧ ps !! p_name p = None)) as [[Hd Hnone]|Hno'].
    + rewrite fmap_cons, filter_cons, decide_False; [exact IH|].
      intros Hnone'. apply Hno. by split.
    + exact IH.
Qed.

(** X25.  The router's way of recomputing needs agrees with signature
    inspection: when the needs stored in a pending command are what
    [normalize_params] reports missing for its parameters, then after
    merging any follow-up intent the remaining needs that the router
    computes from the stored list are exactly what [normalize_params] would
    report for the merged parameters. *)
Theorem remaining_needs_agree_with_signature (methods : gmap string (list parameter))
    (C P : command) :
  needs C = (normalize_params methods (action C) (params C)).2 →
  remaining_needs (needs C) (merged_params C P) =
    (normalize_params methods (action C) (merged_params C P)).2.
Proof.
  unfold normalize_params. simpl. intros ->.
  destruct (methods !! action C) as [sig|]; [|reflexivity].
  symmetry. apply missing_parameters_refilter.
  intros k. rewrite merged_params_lookup. by destruct (params P !! k).
Qed.

Lemma remaining_needs_agree_with_signature_witness :
  remaining_needs (needs pending_ticket_inspected)
    (merged_params pending_ticket_inspected intent_project_key)
  = ["title"].
Proof.
  rewrite (remaining_needs_agree_with_signature jira_methods pending_ticket_inspected
             intent_project_key ltac:(reflexivity)).
  vm_compute. reflexivity.
Defined.

(** X26.  Nothing missing means everything required is passed.  For an
    operation whose parameter names are those of the inspected signature,
    [normalize_params] reports nothing missing exactly when every parameter
    without a default is among the keyword arguments that dispatch passes to
    the operation; and a parameter it reports missing is never among them. *)
Theorem nothing_missing_iff_required_passed (sig : list parameter) (op : operation)
    (ps : gmap string value) :
  op_parameters op = p_name <$> sig →
  (missing_parameters sig ps = [] ↔
   ∀ p, p ∈ sig → p_has_default p = false → is_Some (filter_params op ps !! p_name p))
  ∧ (∀ k, k ∈ missing_parameters sig ps → filter_params op ps !! k = None).
Proof.
  intros Hop.
  assert (∀ p, p ∈ sig → filter_params op ps !! p_name p = ps !! p_name p) as Hpass.
  { intros p Hp. unfold filter_params. rewrite map_lookup_filter.
    destruct (ps !! p_name p) as [v|]; [|done]. simpl.
    rewrite option_guard_True; [done|]. simpl. rewrite Hop. by apply list_elem_of_fmap_2. }
  split; [split|].
  - intros Hnil p Hp Hdefault. rewrite Hpass by done.
    destruct (ps !! p_name p) as [v|] eqn:Hv; [by eexists|].
    assert (p_name p ∈ missing_parameters sig ps) as Hin.
    { apply elem_of_missing_parameters. split; [done|]. by exists p. }
    rewrite Hnil in Hin. by apply elem_of_nil in Hin.
  - intros Hall. destruct (missing_parameters sig ps) as [|k rest] eqn:Hk; [done|].
    assert (k ∈ missing_parameters sig ps) as Hin by (rewrite Hk; apply list_elem_of_here).
    apply elem_of_missing_parameters in Hin as (Hnone & p & Hp & <- & Hdefault).
    destruct (Hall p Hp Hdefault) as [v Hv]. rewrite Hpass in Hv by done. congruence.
  - intros k Hk. apply elem_of_missing_parameters in Hk as (Hnone & p & Hp & <- & _).
    by rewrite Hpass.
Qed.

Lemma nothing_missing_iff_required_passed_witness :
  filter_params sample_generate_code (params command_generate_code) !! "task"
  = Some (VStr "print one").
Proof.
  destruct (nothing_missing_iff_required_passed
              [Param "language" false; Param "task" false] sample_generate_code
              (params command_generate_code) ltac:(reflexivity)) as [[Hpassed _] _].
  destruct (Hpassed ltac:(vm_compute; reflexivity) (Param "task" false)
              ltac:(apply list_elem_of_further, list_elem_of_here) ltac:(reflexivity))
    as [v Hv].
  cbn [p_name] in Hv. rewrite Hv. vm_compute in Hv. congruence.
Defined.

Lemma missing_required_iff (sig : list parameter) (ps : gmap string value) k :
  Param k false ∈ sig → k ∈ missing_parameters sig ps ↔ ps !! k = None.
Proof.
  intros Hin. rewrite elem_of_missing_parameters. split; [by intros [? _]|].
  intros Hnone. split; [done|]. by exists (Param k false).
Qed.

Lemma rename_key_lookup (old new : string) (ps : gmap string value) k :
  old ≠ new →
  rename_key old new ps !! k =
    if decide (k = new) then
      match ps !! old with
      | Some v => Some v
      | None => ps !! new
      end
    else if decide (k = old) then None else ps !! k.
Proof.
  intros Hne. unfold rename_key. destruct (ps !! old) as [v|] eqn:Hold.
  - destruct (decide (k = new)) as [->|Hnew]; [apply lookup_insert_eq|].
    rewrite lookup_insert_ne by done.
    destruct (decide (k = old)) as [->|Hk]; [apply lookup_delete_eq|].
    by apply lookup_delete_ne.
  - destruct (decide (k = new)) as [->|Hnew]; [done|].
    destruct (decide (k = old)) as [->|Hk]; done.
Qed.

(** What the rewriting steps leave for [push_file]. *)
Lemma git_rewrite_push_file (ps : gmap string value) :
  let ps' := git_rewrite_params "push_file" ps in
  ps' !! "language" = None
  ∧ ps' !! "task" = None
  ∧ ps' !! "content" =
      match ps !! "content" with
      | Some v => Some v
      | None => ps !! "code"
      end
  ∧ ps' !! "file_path" =
      match ps !! "file_path" with
      | Some v => Some v
      | None => ps !! "file_name"
      end.
Proof.
  unfold git_rewrite_params. cbv zeta.
  set (ps1 := if decide (is_Some (ps !! "code") ∧ ps !! "content" = None)
              then rename_key "code" "content" ps else ps).
  set (ps2 := if decide ("push_file" = "push_file" ∧ ps1 !! "file_path" = None
                         ∧ is_Some (ps1 !! "file_name"))
              then rename_key "file_name" "file_path" ps1 else ps1).
  rewrite (decide_True (P := "push_file" = "push_file")) by done.
  assert (ps1 !! "content" = match ps !! "content" with
                             | Some v => Some v
                             | None => ps !! "code"
                             end
          ∧ ps1 !! "file_path" = ps !! "file_path"
          ∧ ps1 !! "file_name" = ps !! "file_name") as (Hc1 & Hp1 & Hn1).
  { subst ps1. case_decide as Hcode.
    - destruct Hcode as [[v Hv] Hnone].
      rewrite !rename_key_lookup by done. simpl. by rewrite Hv, Hnone.
    - destruct (ps !! "content") as [v|] eqn:Hcontent; [done|].
      destruct (ps !! "code") as [v|] eqn:Hv; [|done].
      destruct Hcode. split; [by eexists|done]. }
  assert (ps2 !! "content" = ps1 !! "content"
          ∧ ps2 !! "file_path" = match ps1 !! "file_path" with
                                 | Some v => Some v
                                 | None => ps1 !! "file_name"
                                 end) as (Hc2 & Hp2).
  { subst ps2. case_decide as Hfile.
    - destruct Hfile as (_ & Hnone & [v Hv]).
      rewrite !rename_key_lookup by done. simpl. by rewrite Hv, Hnone.
    - split; [done|].
      destruct (ps1 !! "file_path") as [v|] eqn:Hpath; [done|].
      destruct (ps1 !! "file_name") as [v|] eqn:Hv; [|done].
      destruct Hfile. split; [done|]. split; [done|by eexists]. }
  split; [by rewrite lookup_delete_ne, lookup_delete_eq|].
  split; [by rewrite lookup_delete_eq|].
  rewrite !lookup_delete_ne by done. rewrite Hc2, Hc1, Hp2, Hp1, Hn1. done.
Qed.

Lemma git_finish_push_file (methods : gmap string (list parameter)) (sig : list parameter)
    (ps0 ps' : gmap string value) (act' : string) (missing : list string) :
  methods !! "push_file" = Some sig →
  Param "content" false ∈ sig →
  Some (normalize_params methods "push_file" (git_rewrite_params "push_file" ps0))
    = Some (ps', act', missing) →
  act' = "push_file"
  ∧ ps' !! "language" = None
  ∧ ps' !! "task" = None
  ∧ ("content" ∈ missing ↔ ps0 !! "content" = None ∧ ps0 !! "code" = None).
Proof.
  intros Hsig Hcontent. unfold normalize_params. rewrite Hsig. intros [= <- <- <-].
  destruct (git_rewrite_push_file ps0) as (Hlang & Htask & Hc & _).
  split; [done|]. split; [done|]. split; [done|].
  rewrite (missing_required_iff sig _ "content" Hcontent), Hc.
  destruct (ps0 !! "content") as [v|].
  - split; [done|]. by intros [? _].
  - split; [by intros ->|]. by intros [_ ->].
Qed.

(** X27.  [GitAgentLogic.normalize_params] for [push_file], where [content]
    is a required parameter.  It only fails when code generation is called
    and raises, which needs a task and a language without content.  When it
    returns, the action is unchanged; [content] is reported missing exactly
    when the caller gave none of [content], [code] and [task]; and either it
    returned early, asking for the language of a task and leaving the
    parameters alone, or the returned parameters have neither [language] nor
    [task]. *)
Theorem git_normalize_push_file
    (generate_code : value → value → option (gmap string string))
    (methods : gmap string (list parameter)) (sig : list parameter)
    (ps : gmap string value) :
  methods !! "push_file" = Some sig →
  Param "content" false ∈ sig →
  (ps !! "task" = None ∨ is_Some (ps !! "content") ∨ ps !! "language" = None →
   is_Some (git_normalize_params generate_code methods "push_file" ps))
  ∧ ∀ ps' act' missing,
      git_normalize_params generate_code methods "push_file" ps = Some (ps', act', missing) →
      act' = "push_file"
      ∧ ("content" ∈ missing ↔
         ps !! "content" = None ∧ ps !! "code" = None ∧ ps !! "task" = None)
      ∧ ((is_Some (ps !! "task") ∧ ps !! "content" = None ∧ ps !! "language" = None
          ∧ ps' = ps ∧ missing = ["language"])
         ∨ (ps' !! "language" = None ∧ ps' !! "task" = None)).
Proof.
  intros Hsig Hcontent. unfold git_normalize_params. cbv zeta. split.
  - intros Hsafe. destruct (ps !! "task") as [task|] eqn:Htask; [|by eexists].
    case_decide as Hgen; [|by eexists]. destruct Hgen as [_ Hnone].
    destruct (ps !! "language") as [language|] eqn:Hlang; [|by eexists].
    destruct Hsafe as [?|[[v Hv]|?]]; congruence.
  - intros ps' act' missing.
    destruct (ps !! "task") as [task|] eqn:Htask.
    + case_decide as Hgen.
      * destruct Hgen as [_ Hnone].
        destruct (ps !! "language") as [language|] eqn:Hlang.
        -- destruct (generate_code language task) as [code_result|]; [|done].
           intros Hfinish.
           destruct (git_finish_push_file methods sig _ ps' act' missing Hsig Hcontent Hfinish)
             as (-> & Hl & Ht & Hiff).
           split; [done|]. split; [|by right].
           rewrite Hiff, lookup_insert_eq. split; [by intros [? _]|by intros (_ & _ & ?)].
        -- intros [= <- <- <-]. split; [done|]. split.
           ++ rewrite list_elem_of_singleton. split; [done|by intros (_ & _ & ?)].
           ++ left. repeat split; eauto.
      * intros Hfinish.
        destruct (git_finish_push_file methods sig _ ps' act' missing Hsig Hcontent Hfinish)
          as (-> & Hl & Ht & Hiff).
        split; [done|]. split; [|by right].
        rewrite Hiff. split; [|by intros (_ & _ & ?)].
        intros [Hnone _]. destruct Hgen. by split.
    + intros Hfinish.
      destruct (git_finish_push_file methods sig _ ps' act' missing Hsig Hcontent Hfinish)
        as (-> & Hl & Ht & Hiff).
      split; [done|]. split; [|by right]. rewrite Hiff.
      split; [by intros [? ?]|by intros (? & ? & _)].
Qed.

Lemma git_normalize_push_file_witness :
  is_Some (git_normalize_params (λ _ _, None) git_methods "push_file" params_with_code).
Proof.
  destruct (git_normalize_push_file (λ _ _, None) git_methods push_file_signature
              params_with_code ltac:(reflexivity)
              ltac:(apply list_elem_of_further, list_elem_of_further, list_elem_of_here))
    as [Hreturns _].
  apply Hreturns. by left.
Defined.

(** The code given under [code] becomes the content, the file name becomes
    the path, the language is dropped and nothing is missing. *)
Example git_normalize_renames :
  git_normalize_params (λ _ _, None) git_methods "push_file" params_with_code
  = Some (<[ "repo_name" := VStr "demo" ]>
            (<[ "file_path" := VStr "a.py" ]> {[ "content" := VStr "print(1)" ]}),
          "push_file", []).
Proof. vm_compute. reflexivity. Qed.

(** ** Replies without exceptions *)

Section Replies.

Context (cfg : config) (sv : services) (mcp_servers : gmap string handler).
Hypothesis Hclosed : templates_closed cfg.

Lemma missing_params_prompt_formats (listed : string) :
  is_Some (format (tpl_missing_params cfg) {[ "needs" := listed ]}).
Proof.
  destruct Hclosed as (Hneeds & _). apply format_is_Some.
  intros f Hf. rewrite (Hneeds f Hf), lookup_singleton_eq. by eexists.
Qed.

Lemma reprompt_replies c r : is_Some (reprompt_for_missing_params cfg c r).1.
Proof.
  unfold reprompt_for_missing_params, or_raise.
  destruct (missing_params_prompt_formats
              (join ", " (replace_underscores <$> needs c))) as [msg ->].
  by eexists.
Qed.

Lemma route_replies parsed uid r :
  agent parsed ≠ flag_chat_agent_name cfg →
  is_Some (route cfg sv mcp_servers parsed uid r).1.
Proof.
  intros Hchat. destruct Hclosed as (_ & Hagent & Haction & Herror).
  destruct (mcp_servers !! agent parsed) as [h|] eqn:Hh.
  - destruct (h_operations h !! action parsed) as [method_to_call|] eqn:Hop.
    + rewrite (route_resolved cfg sv mcp_servers r uid parsed h method_to_call Hchat Hh Hop).
      cbv zeta. destruct (op_call _ _) as [e|d|repr].
      * simpl. apply format_is_Some. intros f Hf. specialize (Herror f Hf).
        repeat (apply elem_of_cons in Herror as [->|Herror]; [by simplify_map_eq|]).
        by apply elem_of_nil in Herror.
      * destruct (finish_route_run cfg sv uid (agent parsed) (action parsed) (params parsed)
                    (raw_input parsed) d (log_call (Invoke (agent parsed) (action parsed)
                       (filter_params method_to_call (params parsed))) r))
          as (reply & r1 & _ & ->). by eexists.
      * destruct (finish_route_run cfg sv uid (agent parsed) (action parsed) (params parsed)
                    (raw_input parsed) {[ "result" := repr ]}
                    (log_call (Invoke (agent parsed) (action parsed)
                       (filter_params method_to_call (params parsed))) r))
          as (reply & r1 & _ & ->). by eexists.
    + unfold route. rewrite decide_False by done. rewrite Hh, Hop.
      unfold or_raise.
      destruct (format_is_Some (tpl_unsupported_action cfg)
                  (<[ "agent" := agent parsed ]> {[ "action" := action parsed ]}))
        as [msg ->]; [|by eexists].
      intros f Hf. specialize (Haction f Hf).
      repeat (apply elem_of_cons in Haction as [->|Haction]; [by simplify_map_eq|]).
      by apply elem_of_nil in Haction.
  - unfold route. rewrite decide_False by done. rewrite Hh. unfold or_raise.
    destruct (format_is_Some (tpl_unsupported_agent cfg) {[ "agent" := agent parsed ]})
      as [msg ->]; [|by eexists].
    intros f Hf. rewrite (Hagent f Hf), lookup_singleton_eq. by eexists.
Qed.

Lemma fill_from_memory_agent ltm parsed :
  agent (fill_from_memory ltm parsed) = agent parsed.
Proof. unfold fill_from_memory. by repeat case_match. Qed.


End Replies.

Lemma sample_templates_closed : templates_closed sample_cfg.
Proof.
  repeat split; intros f Hf; simpl in Hf;
    repeat (apply elem_of_cons in Hf as [Hf|Hf]; [simplify_eq; set_solver|]);
    by apply elem_of_nil in Hf.
Qed.

